(** * Land/sea raster generator

    A shallow embedding of [server/scripts/generate-land-grid.py] (the
    ray-casting generator) and of the encoder loop of
    [server/scripts/generate-land-grid-fast.py], with the properties of the
    coordinate mapper, the cell classifier, the grid builder and the two
    encoders (run-length rows and packed bits).

    Python values are modelled as the interpreter has them: [int] is [Z],
    [float] is the kernel's binary64 [float] (so rounding, infinities and NaN
    are the real ones), a list is a [list] indexed the Python way (negative
    indices count from the end, anything else out of range raises), and an
    exception is an explicit [Raise]. *)

From Stdlib Require Import ZArith List Lia Bool Floats Sorting.Sorted.
From stdpp Require Import base list list_numbers.
Import ListNotations.

Set Warnings "-inexact-float".
Open Scope Z_scope.

(* ===================================================================== *)
(** * Part I. The Python runtime the scripts rely on                     *)
(* ===================================================================== *)

Module Py.

(** The exceptions the modelled code can raise. *)
Inductive exn := ValueError | OverflowError | ZeroDivisionError | IndexError.

(** Outcome of a computation that touches no mutable object. *)
Inductive result (A : Type) :=
| Ok (a : A)
| Raise (e : exn).
Arguments Ok {A} a.
Arguments Raise {A} e.

#[global] Instance result_ret : MRet result := fun A a => Ok a.
#[global] Instance result_bind : MBind result := fun A B f m =>
  match m with
  | Ok a => f a
  | Raise e => Raise e
  end.
#[global] Instance result_throw : MThrow exn result := fun A e => Raise e.

(** [for x in l: acc = f(acc, x)] where the body may raise. *)
Fixpoint foldM {A B : Type} (f : B -> A -> result B) (acc : B) (l : list A)
  : result B :=
  match l with
  | [] => Ok acc
  | x :: l' => acc' ← f acc x; foldM f acc' l'
  end.

(** [range(lo, hi)] and [range(0, hi, step)]. *)
Definition range (lo hi : Z) : list Z := seqZ lo (hi - lo).
Definition range_step (hi step : Z) : list Z :=
  (fun k => step * k) <$> seqZ 0 ((hi + step - 1) / step).

(** Resolution of a subscript [i] against a sequence of length [len]. *)
Definition index (len i : Z) : result nat :=
  if (0 <=? i) && (i <? len) then Ok (Z.to_nat i)
  else if (- len <=? i) && (i <? 0) then Ok (Z.to_nat (len + i))
  else Raise IndexError.

(** [l[i]]. *)
Definition getitem {A : Type} (l : list A) (i : Z) : result A :=
  k ← index (Z.of_nat (length l)) i;
  match l !! k with
  | Some x => Ok x
  | None => Raise IndexError
  end.

(** ** Floats *)

(** [int(x)] for a float [x]: truncation toward zero; NaN and the
    infinities have no integer value. *)
Definition int_of_float (x : float) : result Z :=
  match Prim2SF x with
  | S754_nan => Raise ValueError
  | S754_infinity _ => Raise OverflowError
  | S754_zero _ => Ok 0
  | S754_finite s m e => Ok (cond_Zopp s (Z.shiftl (Zpos m) e))
  end.

(** [round(x)] for a float [x]: the nearest integer, ties to even. *)
Definition round_of_float (x : float) : result Z :=
  match Prim2SF x with
  | S754_nan => Raise ValueError
  | S754_infinity _ => Raise OverflowError
  | S754_zero _ => Ok 0
  | S754_finite s m e =>
      let q := Z.shiftl (Zpos m) e in
      let twice_rem := 2 * (Zpos m - Z.shiftl q (- e)) in
      let unit := Z.shiftl 1 (- e) in
      let up := if e <? 0
                then (unit <? twice_rem) || ((unit =? twice_rem) && Z.odd q)
                else false in
      Ok (cond_Zopp s (if up then q + 1 else q))
  end.

(** The float an [int] operand is converted to in mixed arithmetic:
    correctly rounded, and an error when it is beyond the float range. *)
Definition float_of_int (n : Z) : result float :=
  let x := SF2Prim (binary_normalize prec emax n 0 false) in
  if is_infinity x then Raise OverflowError else Ok x.

(** [a / b] on floats. *)
Definition truediv (a b : float) : result float :=
  if is_zero b then Raise ZeroDivisionError else Ok (a / b)%float.

(** [a / b] on ints: the correctly rounded quotient of the two integers. *)
Definition int_truediv (a b : Z) : result float :=
  if b =? 0 then Raise ZeroDivisionError
  else
    let s := xorb (a <? 0) (b <? 0) in
    match Z.abs a, Z.abs b with
    | Zpos ma, Zpos mb =>
        let x := SF2Prim (SF64div (S754_finite s ma 0) (S754_finite false mb 0)) in
        if is_infinity x then Raise OverflowError else Ok x
    | _, _ => Ok (if b <? 0 then neg_zero else zero)
    end.

(** [a > b], [max(a, b)], [min(a, b)] on floats: the builtins keep the
    first argument unless the second compares strictly better. *)
Definition gt (a b : float) : bool := (b <? a)%float.
Definition fmax (a b : float) : float := if gt b a then b else a.
Definition fmin (a b : float) : float := if (b <? a)%float then b else a.

(** [max(l)] and [min(l)] of a list: an empty one is a [ValueError]. *)
Definition max_list (l : list float) : result float :=
  match l with
  | [] => Raise ValueError
  | x :: l' => Ok (fold_left fmax l' x)
  end.
Definition min_list (l : list float) : result float :=
  match l with
  | [] => Raise ValueError
  | x :: l' => Ok (fold_left fmin l' x)
  end.

End Py.
Import Py.

(* ===================================================================== *)
(** * Part II. The grid under construction                               *)
(* ===================================================================== *)

(** A [[lon, lat]] position of the input, longitude first. *)
Abbreviation position := (float * float)%type.

(** The grid is a list of rows of ints, [0] for sea and [1] for land. *)
Abbreviation grid := (list (list Z)).

(** The one mutable object of a run: the grid, together with the subscript
    pairs of every [grid[r][c] = 1] statement executed so far, exactly as
    written in the statement (before Python resolves a negative subscript).
    The journal is not consulted by the program. *)
Record store := Store { cells : grid; journal : list (Z * Z) }.

(** Outcome of code that mutates the grid; an exception leaves the store as
    it was when it was raised. *)
Inductive outcome (A : Type) :=
| Done (a : A) (s : store)
| Fail (e : exn) (s : store).
Arguments Done {A} a s.
Arguments Fail {A} e s.

Definition M (A : Type) : Type := store -> outcome A.

#[global] Instance M_ret : MRet M := fun A a s => Done a s.
#[global] Instance M_bind : MBind M := fun A B f m s =>
  match m s with
  | Done a s' => f a s'
  | Fail e s' => Fail e s'
  end.

(** A computation that does not touch the grid, run in its presence. *)
Definition pure {A : Type} (r : result A) : M A := fun s =>
  match r with
  | Ok a => Done a s
  | Raise e => Fail e s
  end.

(** [for x in l: body(x)]. *)
Fixpoint for_each {A : Type} (l : list A) (body : A -> M unit) : M unit :=
  match l with
  | [] => mret tt
  | x :: l' => body x;; for_each l' body
  end.

(** [grid[r][c] = 1]. *)
Definition setitem2 (r c : Z) : M unit := fun s =>
  let s := Store (cells s) (journal s ++ [(r, c)]) in
  match index (Z.of_nat (length (cells s))) r with
  | Raise e => Fail e s
  | Ok i =>
      match cells s !! i with
      | None => Fail IndexError s
      | Some row =>
          match index (Z.of_nat (length row)) c with
          | Raise e => Fail e s
          | Ok j => Done tt (Store (<[i := <[j := 1]> row]> (cells s)) (journal s))
          end
      end
  end.

(** The grid a finished computation leaves, if it finished. *)
Definition finished {A : Type} (o : outcome A) : option grid :=
  match o with
  | Done _ s => Some (cells s)
  | Fail _ _ => None
  end.

Definition final_store {A : Type} (o : outcome A) : store :=
  match o with
  | Done _ s => s
  | Fail _ s => s
  end.

(** [grid[r][c]] read back, for stating results: [None] outside the grid. *)
Definition cell (g : grid) (r c : nat) : option Z := row ← g !! r; row !! c.

(** ** Input records *)

(** One entry of [polygons] as [load_geojson] builds it: the vertex list, the
    bounding box [(min_lon, min_lat, max_lon, max_lat)] and the two optional
    flags, absent flags reading as [False]. *)
Record polygon_data := PolygonData {
  coords : list position;
  bbox : float * float * float * float;
  is_line : bool;
  is_point : bool
}.

(** The geometry of a feature, by its [type] tag; [coordinates] nested as
    GeoJSON nests them. Any other tag is [OtherGeometry]. *)
Inductive geometry :=
| Polygon (rings : list (list position))
| MultiPolygon (polys : list (list (list position)))
| LineString (line : list position)
| MultiLineString (lines : list (list position))
| Point (p : position)
| MultiPoint (ps : list position)
| OtherGeometry.

(** [calculate_bbox(coords)]. *)
Definition calculate_bbox (coords : list position)
  : result (float * float * float * float) :=
  let lons := fst <$> coords in
  let lats := snd <$> coords in
  min_lon ← min_list lons;
  min_lat ← min_list lats;
  max_lon ← max_list lons;
  max_lat ← max_list lats;
  Ok (min_lon, min_lat, max_lon, max_lat).

(** The entries one feature adds to [polygons] in [load_geojson]. *)
Definition load_feature (g : geometry) : result (list polygon_data) :=
  match g with
  | Polygon rings =>
      ring ← getitem rings 0;
      box ← calculate_bbox ring;
      Ok [PolygonData ring box false false]
  | MultiPolygon polys =>
      foldM (fun acc poly =>
               ring ← getitem poly 0;
               box ← calculate_bbox ring;
               Ok (acc ++ [PolygonData ring box false false])) [] polys
  | LineString line =>
      box ← calculate_bbox line;
      Ok [PolygonData line box true false]
  | MultiLineString lines =>
      foldM (fun acc line =>
               box ← calculate_bbox line;
               Ok (acc ++ [PolygonData line box true false])) [] lines
  | Point (lon, lat) =>
      Ok [PolygonData [(lon, lat)] (lon, lat, lon, lat) false true]
  | MultiPoint ps =>
      Ok ((fun '(lon, lat) =>
             PolygonData [(lon, lat)] (lon, lat, lon, lat) false true) <$> ps)
  | OtherGeometry => Ok []
  end.

(** [load_geojson] over the decoded features of one file. *)
Definition load_geojson (features : list geometry) : result (list polygon_data) :=
  foldM (fun polygons g => new ← load_feature g; Ok (polygons ++ new)) [] features.

(** [point_in_polygon]: one pass of the loop body for the edge from vertex
    [j] to vertex [i]. The right operand of [and] is evaluated only when the
    left one is true. *)
Definition ray_crosses (x y : float) (pi pj : position) : result bool :=
  let '(xi, yi) := pi in
  let '(xj, yj) := pj in
  if xorb (gt yi y) (gt yj y) then
    q ← truediv ((xj - xi) * (y - yi))%float (yj - yi)%float;
    Ok (x <? q + xi)%float
  else Ok false.

(** [point_in_polygon(x, y, polygon)]. *)
Definition point_in_polygon (x y : float) (polygon : list position) : result bool :=
  let n := Z.of_nat (length polygon) in
  '(inside, _) ← foldM (fun (st : bool * Z) (i : Z) =>
                          let '(inside, j) := st in
                          pi ← getitem polygon i;
                          pj ← getitem polygon j;
                          toggle ← ray_crosses x y pi pj;
                          Ok (if toggle : bool then negb inside else inside, i))
                       (false, n - 1) (range 0 n);
  Ok inside.

(** [int(extent / RESOLUTION)], the expression behind [HEIGHT] and [WIDTH]. *)
Definition grid_dimension (extent : Z) (resolution : float) : result Z :=
  e ← float_of_int extent;
  q ← truediv e resolution;
  int_of_float q.

Section Generator.

(** The module-level constants of a script. *)
Variable RESOLUTION : float.
Variables HEIGHT WIDTH : Z.

(** [lat_lon_to_grid(lat, lon)]. *)
Definition lat_lon_to_grid (lat lon : float) : result (Z * Z) :=
  q ← truediv (90 - lat)%float RESOLUTION;
  row ← int_of_float q;
  q ← truediv (lon + 180)%float RESOLUTION;
  col ← int_of_float q;
  let row := Z.max 0 (Z.min (HEIGHT - 1) row) in
  let col := Z.max 0 (Z.min (WIDTH - 1) col) in
  Ok (row, col).

(** [grid_to_lat_lon(row, col)]. *)
Definition grid_to_lat_lon (row col : Z) : result (float * float) :=
  r ← float_of_int row;
  let lat := (90 - (r + 0.5) * RESOLUTION)%float in
  c ← float_of_int col;
  let lon := (-180 + (c + 0.5) * RESOLUTION)%float in
  Ok (lat, lon).

(** The two nested [for dr ... for dc ...] loops with their guard. *)
Definition mark_neighbours (row col : Z) : M unit :=
  for_each (range (-1) 2) (fun dr =>
    for_each (range (-1) 2) (fun dc =>
      let r := row + dr in
      let c := col + dc in
      if (0 <=? r) && (r <? HEIGHT) && (0 <=? c) && (c <? WIDTH)
      then setitem2 r c
      else mret tt)).

(** [row, col = lat_lon_to_grid(lat, lon)], [grid[row][col] = 1] and the
    neighbour loops: the text shared by the point and the line branch. *)
Definition mark_around (lat lon : float) : M unit :=
  '(row, col) ← pure (lat_lon_to_grid lat lon);
  setitem2 row col;;
  mark_neighbours row col.

(** [steps] of one line segment. *)
Definition line_steps (lon1 lat1 lon2 lat2 : float) : result Z :=
  let dist := fmax (abs (lon2 - lon1)) (abs (lat2 - lat1)) in
  q ← truediv dist RESOLUTION;
  n ← int_of_float (q * 2)%float;
  Ok (Z.max 2 n).

(** The point sampled at [step] of [steps] between two vertices. *)
Definition interpolate (lon1 lat1 lon2 lat2 : float) (step steps : Z)
  : result (float * float) :=
  t ← int_truediv step steps;
  let lon := (lon1 + t * (lon2 - lon1))%float in
  let lat := (lat1 + t * (lat2 - lat1))%float in
  Ok (lat, lon).

(** The body of [for i in range(len(coords) - 1)] in the line branch. *)
Definition mark_segment (coords : list position) (i : Z) : M unit :=
  '(lon1, lat1) ← pure (getitem coords i);
  '(lon2, lat2) ← pure (getitem coords (i + 1));
  steps ← pure (line_steps lon1 lat1 lon2 lat2);
  for_each (range 0 (steps + 1)) (fun step =>
    '(lat, lon) ← pure (interpolate lon1 lat1 lon2 lat2 step steps);
    mark_around lat lon).

(** [mark_polygon_on_grid(grid, polygon_data)]. *)
Definition mark_polygon_on_grid (polygon_data : polygon_data) : M unit :=
  let coords := coords polygon_data in
  let '(min_lon, min_lat, max_lon, max_lat) := bbox polygon_data in
  if is_point polygon_data then
    '(lon, lat) ← pure (getitem coords 0);
    mark_around lat lon
  else if is_line polygon_data then
    for_each (range 0 (Z.of_nat (length coords) - 1)) (mark_segment coords)
  else
    '(start_row, _) ← pure (lat_lon_to_grid max_lat min_lon);
    '(end_row, _) ← pure (lat_lon_to_grid min_lat max_lon);
    '(_, start_col) ← pure (lat_lon_to_grid max_lat min_lon);
    '(_, end_col) ← pure (lat_lon_to_grid min_lat max_lon);
    let start_row := Z.max 0 start_row in
    let end_row := Z.min (HEIGHT - 1) end_row in
    let start_col := Z.max 0 start_col in
    let end_col := Z.min (WIDTH - 1) end_col in
    for_each (range start_row (end_row + 1)) (fun row =>
      for_each (range start_col (end_col + 1)) (fun col =>
        '(lat, lon) ← pure (grid_to_lat_lon row col);
        inside ← pure (point_in_polygon lon lat coords);
        if inside : bool then setitem2 row col else mret tt)).

(** [[[0] * WIDTH for _ in range(HEIGHT)]]. *)
Definition empty_grid : grid :=
  replicate (Z.to_nat HEIGHT) (replicate (Z.to_nat WIDTH) 0).

(** The grid-building part of [main]: a fresh all-sea grid, then every
    entry of [all_polygons] in order. *)
Definition build (all_polygons : list polygon_data) : outcome unit :=
  for_each all_polygons mark_polygon_on_grid (Store empty_grid []).

(** ** The two encoders *)

(** [save_grid_binary]: the bytes of one row. [bytearray.append] accepts
    only values in [range(256)]. *)
Definition pack_byte (row : list Z) (col_start : Z) : result Z :=
  byte ← foldM (fun byte bit =>
                  let col := col_start + bit in
                  if col <? WIDTH then
                    v ← getitem row col;
                    Ok (if v =? 1 then Z.lor byte (Z.shiftl 1 (7 - bit)) else byte)
                  else Ok byte) 0 (range 0 8);
  if (0 <=? byte) && (byte <? 256) then Ok byte else Raise ValueError.

Definition pack_row (packed : list Z) (row : list Z) : result (list Z) :=
  foldM (fun packed col_start =>
           byte ← pack_byte row col_start;
           Ok (packed ++ [byte])) packed (range_step WIDTH 8).

(** [save_grid_binary(grid, filename)]: the contents of [packed] when the
    file is written. *)
Definition save_grid_binary (g : grid) : result (list Z) :=
  foldM pack_row [] g.

(** The state of the run-length loop over one row. *)
Record rle_state := RleState {
  segments : list (Z * Z);
  in_land : bool;
  start : Z;
  total_land_cells : Z
}.

(** One pass of [for col in range(WIDTH)] given whether the cell is land. *)
Definition rle_step (st : rle_state) (col : Z) (land : bool) : rle_state :=
  if land then
    if negb (in_land st)
    then RleState (segments st) true col (total_land_cells st)
    else st
  else
    if in_land st
    then RleState (segments st ++ [(start st, col - start st)]) false (start st)
                  (total_land_cells st + (col - start st))
    else st.

(** The statements after the column loop. *)
Definition rle_close (st : rle_state) : list (Z * Z) * Z :=
  if in_land st
  then (segments st ++ [(start st, WIDTH - start st)],
        total_land_cells st + (WIDTH - start st))
  else (segments st, total_land_cells st).

(** The body of [for row in grid] in [save_grid_compact_json]: the
    segments of the row and the running total after it. *)
Definition encode_row (total : Z) (row : list Z) : result (list (Z * Z) * Z) :=
  st ← foldM (fun st col => v ← getitem row col; Ok (rle_step st col (v =? 1)))
             (RleState [] false 0 total) (range 0 WIDTH);
  Ok (rle_close st).

(** [save_grid_compact_json(grid, filename)]: [encoded_rows] and
    [total_land_cells] as they are stored in the output object. *)
Definition save_grid_compact_json (g : grid) : result (list (list (Z * Z)) * Z) :=
  foldM (fun (acc : list (list (Z * Z)) * Z) (row : list Z) =>
           let '(encoded_rows, total) := acc in
           '(segs, total') ← encode_row total row;
           Ok (encoded_rows ++ [segs], total')) ([], 0) g.

(** The row loop of [generate_land_grid] in the fast script, where the
    land test is a query to the prepared geometry, here [contains]. *)
Variable contains : float -> float -> bool.

Definition fast_encode_row (total : Z) (row_idx : Z) : result (list (Z * Z) * Z) :=
  r ← float_of_int row_idx;
  let lat := (90 - (r + 0.5) * RESOLUTION)%float in
  st ← foldM (fun st col_idx =>
                c ← float_of_int col_idx;
                let lon := (-180 + (c + 0.5) * RESOLUTION)%float in
                Ok (rle_step st col_idx (contains lon lat)))
             (RleState [] false 0 total) (range 0 WIDTH);
  Ok (rle_close st).

Definition generate_land_grid : result (list (list (Z * Z)) * Z) :=
  foldM (fun (acc : list (list (Z * Z)) * Z) (row_idx : Z) =>
           let '(rle_rows, total) := acc in
           '(segs, total') ← fast_encode_row total row_idx;
           Ok (rle_rows ++ [segs], total')) ([], 0) (range 0 HEIGHT).

End Generator.

(** ** The constants of the two scripts *)

(** [generate-land-grid.py]. *)
Module Main.
Definition RESOLUTION : float := 0.02.
Definition HEIGHT : Z := 9000.
Definition WIDTH : Z := 18000.
End Main.

(** [generate-land-grid-fast.py]. *)
Module Fast.
Definition RESOLUTION : float := 0.05.
Definition WIDTH : Z := 7200.
Definition HEIGHT : Z := 3600.
End Fast.

(* ===================================================================== *)
(** * Part III. Reference definitions used to state the results          *)
(* ===================================================================== *)

(** The dimension formula as the specification writes it, [round(extent /
    resolution)], next to [grid_dimension], which is the code's
    [int(extent / RESOLUTION)]. *)
Definition spec_grid_dimension (extent : Z) (resolution : float) : result Z :=
  e ← float_of_int extent;
  q ← truediv e resolution;
  round_of_float q.

(** The number of interpolation intervals as the specification writes it,
    [max(2, round(2 * max(|dlon|, |dlat|) / resolution))], next to
    [line_steps], which is the code's [max(2, int(dist / RESOLUTION * 2))]. *)
Definition spec_line_steps (resolution : float) (lon1 lat1 lon2 lat2 : float)
  : result Z :=
  let dist := fmax (abs (lon2 - lon1)) (abs (lat2 - lat1)) in
  q ← truediv (2 * dist)%float resolution;
  n ← round_of_float q;
  Ok (Z.max 2 n).

(** [toCell(toCenter(row, col))]. *)
Definition cell_of_center (RESOLUTION : float) (HEIGHT WIDTH : Z) (row col : Z)
  : result (Z * Z) :=
  '(lat, lon) ← grid_to_lat_lon RESOLUTION row col;
  lat_lon_to_grid RESOLUTION HEIGHT WIDTH lat lon.

(** The row half and the column half of [lat_lon_to_grid], and the
    round trip of one row index and of one column index. *)
Definition row_of_lat (RESOLUTION : float) (HEIGHT : Z) (lat : float) : result Z :=
  q ← truediv (90 - lat)%float RESOLUTION;
  row ← int_of_float q;
  Ok (Z.max 0 (Z.min (HEIGHT - 1) row)).

Definition col_of_lon (RESOLUTION : float) (WIDTH : Z) (lon : float) : result Z :=
  q ← truediv (lon + 180)%float RESOLUTION;
  col ← int_of_float q;
  Ok (Z.max 0 (Z.min (WIDTH - 1) col)).

Definition row_round_trips (RESOLUTION : float) (HEIGHT : Z) (row : Z) : bool :=
  match float_of_int row with
  | Ok r =>
      match row_of_lat RESOLUTION HEIGHT (90 - (r + 0.5) * RESOLUTION)%float with
      | Ok row' => row' =? row
      | Raise _ => false
      end
  | Raise _ => false
  end.

Definition col_round_trips (RESOLUTION : float) (WIDTH : Z) (col : Z) : bool :=
  match float_of_int col with
  | Ok c =>
      match col_of_lon RESOLUTION WIDTH (-180 + (c + 0.5) * RESOLUTION)%float with
      | Ok col' => col' =? col
      | Raise _ => false
      end
  | Raise _ => false
  end.

(** [f] holds of every integer from [0] up to [100 * chunks], tested a
    hundred indices at a time. *)
Definition all_in_chunks (f : Z -> bool) (chunks : Z) : bool :=
  forallb (fun k => forallb f (seqZ (100 * k) 100)) (seqZ 0 chunks).

(** Whether column [c] of [row] is land, as both encoders test it:
    [row[c] == 1]. Columns outside the row are not land. *)
Definition is_land (row : list Z) (c : Z) : bool :=
  (0 <=? c) && match row !! Z.to_nat c with
               | Some v => v =? 1
               | None => false
               end.

(** A row with every land cell written [1] and every other cell [0]. *)
Definition land_mask (row : list Z) : list Z :=
  (fun v => if v =? 1 then 1 else 0) <$> row.

(** Modelled from the spec: the replay of one run of an RleRow; the reader
    of the artifact is not part of the two scripts. The cells of columns
    [start .. start + length - 1] are OR-ed with 1. *)
Definition or_run (row : list Z) (run : Z * Z) : list Z :=
  imap (fun c v =>
          if (run.1 <=? Z.of_nat c) && (Z.of_nat c <? run.1 + run.2)
          then Z.lor v 1 else v) row.

(** Modelled from the spec: the row an RleRow decodes to, the runs OR-ed
    one after the other into an all-zero row of [width] cells. *)
Definition replay (width : Z) (runs : list (Z * Z)) : list Z :=
  fold_left or_run runs (replicate (Z.to_nat width) 0).

(** [(start, length)] is a maximal run of land columns. *)
Definition maximal_run (land : Z -> bool) (run : Z * Z) : Prop :=
  0 <= run.1 /\ 0 < run.2 /\
  (forall c, run.1 <= c < run.1 + run.2 -> land c = true) /\
  land (run.1 - 1) = false /\ land (run.1 + run.2) = false.

(** Each run ends before the next one starts. *)
Definition run_before (a b : Z * Z) : Prop := a.1 + a.2 < b.1.

(** The number of cells a list of runs covers. *)
Definition run_cells (runs : list (Z * Z)) : Z := foldr Z.add 0 (snd <$> runs).

(** What holds of the loop state once the columns below [n] are done. *)
Record rle_inv (land : Z -> bool) (total0 : Z) (n : Z) (st : rle_state) : Prop := {
  inv_closed : Forall (fun run => maximal_run land run /\ run.1 + run.2 < n)
                      (segments st);
  inv_sorted : StronglySorted run_before (segments st);
  inv_open :
    if in_land st
    then 0 <= start st < n /\
         (forall c, start st <= c < n -> land c = true) /\
         land (start st - 1) = false /\
         Forall (fun run => run.1 + run.2 < start st) (segments st)
    else n = 0 \/ land (n - 1) = false;
  inv_cover : forall c, 0 <= c < n -> land c = true ->
                        (exists run, run ∈ segments st /\ run.1 <= c < run.1 + run.2) \/
                        (in_land st = true /\ start st <= c);
  inv_total : total_land_cells st = total0 + run_cells (segments st)
}.

(** The land test of the fast script at column [c] of the row of latitude
    [lat]: the query at the cell center, for the columns of the grid. *)
Definition fast_is_land (RESOLUTION : float) (WIDTH : Z)
    (contains : float -> float -> bool) (lat : float) (c : Z) : bool :=
  (0 <=? c) && (c <? WIDTH) &&
  match float_of_int c with
  | Ok x => contains (-180 + (x + 0.5) * RESOLUTION)%float lat
  | Raise _ => false
  end.

(** Whether every integer below [100 * chunks] converts to a float. *)
Definition converts (n : Z) : bool :=
  match float_of_int n with
  | Ok _ => true
  | Raise _ => false
  end.

(** The number of bytes one row takes in the packed stream. *)
Definition row_stride (width : Z) : Z := (width + 7) / 8.

(** Modelled from the spec: the reader of PackedBits, which is not part of
    the two scripts. The stream carries no header, so the dimensions come
    from outside; a stream whose length is not [height * ceil(width / 8)]
    is refused, and cell [(r, c)] is bit [7 - c mod 8] of byte [c / 8] of
    the byte group of row [r]. *)
Definition unpack (width height : Z) (packed : list Z) : option grid :=
  if Z.of_nat (length packed) =? height * row_stride width then
    Some ((fun r =>
             (fun c =>
                let byte := packed !!! Z.to_nat (r * row_stride width + c / 8) in
                if Z.testbit byte (7 - c mod 8) then 1 else 0)
               <$> seqZ 0 width)
            <$> seqZ 0 height)
  else None.

(** The byte a chunk of eight columns packs to, most significant bit
    first, columns at or beyond [width] contributing nothing. *)
Definition chunk_byte (width : Z) (row : list Z) (col_start : Z) : Z :=
  fold_left (fun byte bit =>
               if (col_start + bit <? width) && is_land row (col_start + bit)
               then Z.lor byte (Z.shiftl 1 (7 - bit)) else byte)
            (seqZ 0 8) 0.

Definition row_bytes (width : Z) (row : list Z) : list Z :=
  (fun k => chunk_byte width row (8 * k)) <$> seqZ 0 (row_stride width).

(** A subscript pair that addresses a cell of a [HEIGHT] by [WIDTH] grid
    without any help from negative indexing. *)
Definition in_grid (HEIGHT WIDTH : Z) (rc : Z * Z) : Prop :=
  0 <= rc.1 < HEIGHT /\ 0 <= rc.2 < WIDTH.

(** The grid has [HEIGHT] rows of [WIDTH] cells each. *)
Definition grid_shape (HEIGHT WIDTH : Z) (g : grid) : Prop :=
  Z.of_nat (length g) = HEIGHT /\
  Forall (fun row => Z.of_nat (length row) = WIDTH) g.

(** The grid with the cells at the given positions set to land. A position
    is read as it stands: a negative index addresses no cell, and neither
    does one beyond the last row or column. *)
Definition paint_cell (g : grid) (rc : Z * Z) : grid :=
  if (0 <=? rc.1) && (0 <=? rc.2)
  then alter (<[Z.to_nat rc.2 := 1]>) (Z.to_nat rc.1) g
  else g.

Definition paint (g : grid) (ws : list (Z * Z)) : grid := fold_left paint_cell ws g.

(** The store after the assignments [ws] have been executed on [s]. *)
Definition after_writes (s : store) (ws : list (Z * Z)) : store :=
  Store (paint (cells s) ws) (journal s ++ ws).

(** [p] is the cell [q] or one of its eight neighbours. *)
Definition near (q p : Z * Z) : Prop :=
  -1 <= p.1 - q.1 <= 1 /\ -1 <= p.2 - q.2 <= 1.

(** The cells of the points sampled along a line, in the order the line
    branch visits them: for the segment from vertex [i] to vertex [i + 1],
    the points at [t = k / steps] for [k = 0 .. steps], each mapped to its
    cell by [lat_lon_to_grid]. *)
Section LineSamples.

Variable RESOLUTION : float.
Variables HEIGHT WIDTH : Z.

Definition sample_cell (lon1 lat1 lon2 lat2 : float) (steps k : Z) : result (Z * Z) :=
  '(lat, lon) ← interpolate lon1 lat1 lon2 lat2 k steps;
  lat_lon_to_grid RESOLUTION HEIGHT WIDTH lat lon.

Definition segment_samples (coords : list position) (i : Z) : result (list (Z * Z)) :=
  '(lon1, lat1) ← getitem coords i;
  '(lon2, lat2) ← getitem coords (i + 1);
  steps ← line_steps RESOLUTION lon1 lat1 lon2 lat2;
  mapM (sample_cell lon1 lat1 lon2 lat2 steps) (range 0 (steps + 1)).

Definition line_samples (coords : list position) : result (list (Z * Z)) :=
  css ← mapM (segment_samples coords) (range 0 (Z.of_nat (length coords) - 1));
  Ok (concat css).

End LineSamples.

(** [performs m res ws]: on every store whose grid has the right shape, [m]
    ends with [res] (a value or an exception) after executing exactly the
    assignments [ws], all of them in range. *)
Definition performs (HEIGHT WIDTH : Z) {A : Type} (m : M A) (res : result A)
    (ws : list (Z * Z)) : Prop :=
  Forall (in_grid HEIGHT WIDTH) ws /\
  forall s, grid_shape HEIGHT WIDTH (cells s) ->
            m s = match res with
                  | Ok a => Done a (after_writes s ws)
                  | Raise e => Fail e (after_writes s ws)
                  end.

Definition writer (HEIGHT WIDTH : Z) {A : Type} (m : M A) : Prop :=
  exists res ws, performs HEIGHT WIDTH m res ws.

(** The assignments of the two neighbour loops around [(row, col)]. *)
Definition neighbour_writes (HEIGHT WIDTH : Z) (row col : Z) : list (Z * Z) :=
  concat ((fun dr =>
             concat ((fun dc =>
                        if (0 <=? row + dr) && (row + dr <? HEIGHT) &&
                           (0 <=? col + dc) && (col + dc <? WIDTH)
                        then [(row + dr, col + dc)] else [])
                       <$> range (-1) 2))
            <$> range (-1) 2).

(** What one dilation stamp writes: the cell, then its in-range
    neighbourhood (the cell again among it). *)
Definition stamp_writes (HEIGHT WIDTH : Z) (rc : Z * Z) : list (Z * Z) :=
  rc :: neighbour_writes HEIGHT WIDTH rc.1 rc.2.

(** [follows m r w]: [m] goes the way the pure description [r] says. If
    [r] is a value [y], [m] finishes after writing [w y]; if [r] raises,
    [m] stops with the same exception (after some in-range writes). *)
Definition follows (HEIGHT WIDTH : Z) {B : Type} (m : M unit) (r : result B)
    (w : B -> list (Z * Z)) : Prop :=
  match r with
  | Ok y => performs HEIGHT WIDTH m (Ok tt) (w y)
  | Raise e => exists ws, performs HEIGHT WIDTH m (Raise e) ws
  end.

(** The assignments an entry makes, and whether it is processed without
    an exception: read off a run on the fresh grid, and the same on any
    grid of the right shape. *)
Definition footprint (RESOLUTION : float) (HEIGHT WIDTH : Z) (p : polygon_data)
  : list (Z * Z) :=
  journal (final_store
             (mark_polygon_on_grid RESOLUTION HEIGHT WIDTH p
                (Store (empty_grid HEIGHT WIDTH) []))).

Definition processed (RESOLUTION : float) (HEIGHT WIDTH : Z) (p : polygon_data)
  : bool :=
  match mark_polygon_on_grid RESOLUTION HEIGHT WIDTH p
          (Store (empty_grid HEIGHT WIDTH) []) with
  | Done _ _ => true
  | Fail _ _ => false
  end.


(** The cells the polygon branch sets, in scan order: the cells of the
    rectangle between the clamped cells of the two corners of the bounding
    box whose center [point_in_polygon] finds inside the ring, kept row by
    row and column by column as the two loops meet them. *)
Section PolygonScan.

Variable RESOLUTION : float.
Variables HEIGHT WIDTH : Z.

Definition scan_cell (coords : list position) (row col : Z) : result (list (Z * Z)) :=
  '(lat, lon) ← grid_to_lat_lon RESOLUTION row col;
  inside ← point_in_polygon lon lat coords;
  Ok (if inside : bool then [(row, col)] else []).

Definition polygon_scan (p : polygon_data) : result (list (list (list (Z * Z)))) :=
  let '(min_lon, min_lat, max_lon, max_lat) := bbox p in
  '(start_row, _) ← lat_lon_to_grid RESOLUTION HEIGHT WIDTH max_lat min_lon;
  '(end_row, _) ← lat_lon_to_grid RESOLUTION HEIGHT WIDTH min_lat max_lon;
  '(_, start_col) ← lat_lon_to_grid RESOLUTION HEIGHT WIDTH max_lat min_lon;
  '(_, end_col) ← lat_lon_to_grid RESOLUTION HEIGHT WIDTH min_lat max_lon;
  let start_row := Z.max 0 start_row in
  let end_row := Z.min (HEIGHT - 1) end_row in
  let start_col := Z.max 0 start_col in
  let end_col := Z.min (WIDTH - 1) end_col in
  mapM (fun row => mapM (scan_cell (coords p) row) (range start_col (end_col + 1)))
       (range start_row (end_row + 1)).

Definition polygon_cells (p : polygon_data) : result (list (Z * Z)) :=
  polygon_scan p ≫=
    fun rows : list (list (list (Z * Z))) => Ok (concat ((fun cols => concat cols) <$> rows)).

End PolygonScan.

(** Inputs of the degenerate-polygon scenarios: two rings of two vertices
    each, as [load_geojson] stores them.  The segment of the first passes
    through (15, 15), a cell center at resolutions 30, 10 and 2; the
    segment of the second passes through the center of cell (4500, 9000)
    of the 0.02 degree grid. *)
Definition two_vertex_ring : list position :=
  [(14.3, 13.6); (17.1, 19.2)]%float.

Definition two_vertex_polygon : polygon_data :=
  PolygonData two_vertex_ring (14.3, 13.6, 17.1, 19.2)%float false false.

Definition two_vertex_ring_main : list position :=
  [(-0.0900000000000091, -0.11000000000000512);
   (0.30999999999999089, 0.28999999999999487)]%float.

Definition two_vertex_polygon_main : polygon_data :=
  PolygonData two_vertex_ring_main
    (-0.0900000000000091, -0.11000000000000512,
     0.30999999999999089, 0.28999999999999487)%float false false.
(* ===================================================================== *)
(** * Part IV. Results                                                   *)
(* ===================================================================== *)

(** ** Subscripts, ranges and loops *)

Lemma index_in_range (len i : Z) : 0 <= i < len -> index len i = Ok (Z.to_nat i).
Proof.
  intros H. unfold index.
  destruct (Z.leb_spec 0 i); [|lia]. destruct (Z.ltb_spec i len); [|lia].
  reflexivity.
Qed.

Lemma getitem_lookup {A : Type} (l : list A) (i : Z) (x : A) :
  0 <= i -> l !! Z.to_nat i = Some x -> getitem l i = Ok x.
Proof.
  intros Hi Hx. unfold getitem.
  rewrite index_in_range; [simpl; rewrite Hx; reflexivity|].
  apply lookup_lt_Some in Hx. lia.
Qed.

Lemma getitem_in_range {A : Type} (l : list A) (i : Z) :
  0 <= i < Z.of_nat (length l) ->
  exists x, l !! Z.to_nat i = Some x /\ getitem l i = Ok x.
Proof.
  intros Hi. destruct (lookup_lt_is_Some_2 l (Z.to_nat i)) as [x Hx]; [lia|].
  exists x. split; [exact Hx|]. apply getitem_lookup; [lia | exact Hx].
Qed.

Lemma elem_of_range (lo hi k : Z) : k ∈ range lo hi <-> lo <= k < hi.
Proof. unfold range. rewrite elem_of_seqZ. lia. Qed.

Lemma foldM_app {A B : Type} (f : B -> A -> result B) (l1 l2 : list A) (acc : B) :
  foldM f acc (l1 ++ l2) = (acc' ← foldM f acc l1; foldM f acc' l2).
Proof.
  revert acc. induction l1 as [|x l1 IH]; intros acc; simpl; [reflexivity|].
  destruct (f acc x) as [acc'|e]; simpl; [apply IH | reflexivity].
Qed.

(** ** Facts about binary64 arithmetic *)

Section Binary64.

Local Abbreviation fexp := (SpecFloat.fexp prec emax).

Lemma fexp_eq e : fexp e = Z.max (e - 53) (-1074).
Proof. reflexivity. Qed.

Lemma digits2_pos_size m : digits2_pos m = Pos.size m.
Proof. induction m; simpl; congruence. Qed.

Lemma digits2_log2 m : Zpos (digits2_pos m) = Z.log2 (Zpos m) + 1.
Proof.
  rewrite digits2_pos_size. destruct m; simpl; try lia.
Qed.

Lemma digits2_bounds m :
  2 ^ (Zpos (digits2_pos m) - 1) <= Zpos m < 2 ^ Zpos (digits2_pos m).
Proof.
  rewrite digits2_log2.
  pose proof (Z.log2_spec (Zpos m) ltac:(lia)) as H.
  replace (Z.log2 (Z.pos m) + 1 - 1) with (Z.log2 (Zpos m)) by lia.
  replace (Z.log2 (Z.pos m) + 1) with (Z.succ (Z.log2 (Zpos m))) by lia.
  exact H.
Qed.

Lemma shr_m_shr_1 mrs : 0 <= shr_m mrs -> shr_m (shr_1 mrs) = Z.div2 (shr_m mrs).
Proof.
  destruct mrs as [m r s]. simpl. intros Hm.
  destruct m as [|p|p]; [reflexivity | destruct p; reflexivity | lia].
Qed.

Lemma shr_m_iter_pos p : forall mrs,
  0 <= shr_m mrs ->
  shr_m (SpecFloat.iter_pos shr_1 p mrs) = Z.shiftr (shr_m mrs) (Zpos p).
Proof.
  induction p as [p IH|p IH|]; intros mrs Hm; simpl SpecFloat.iter_pos.
  - assert (H1 : 0 <= shr_m (shr_1 mrs)).
    { rewrite shr_m_shr_1 by done. rewrite Z.div2_spec. apply Z.shiftr_nonneg. done. }
    assert (H2 : 0 <= shr_m (SpecFloat.iter_pos shr_1 p (shr_1 mrs))).
    { rewrite IH by done. apply Z.shiftr_nonneg. done. }
    rewrite IH by done. rewrite IH by done. rewrite shr_m_shr_1 by done.
    rewrite Z.div2_spec. rewrite !Z.shiftr_shiftr by lia.
    f_equal. lia.
  - assert (H2 : 0 <= shr_m (SpecFloat.iter_pos shr_1 p mrs)).
    { rewrite IH by done. apply Z.shiftr_nonneg. done. }
    rewrite IH by done. rewrite IH by done.
    rewrite !Z.shiftr_shiftr by lia. f_equal. lia.
  - rewrite shr_m_shr_1 by done. apply Z.div2_spec.
Qed.

Lemma shr_m_of_loc m l : shr_m (shr_record_of_loc m l) = m.
Proof. destruct l as [|[]]; reflexivity. Qed.

(** Shifting a positive mantissa to its canonical exponent keeps it
    positive, provided the exponent is not below the smallest one. *)
Lemma shr_fexp_positive m e l :
  0 < m -> -1074 <= e ->
  0 < shr_m (fst (shr_fexp prec emax m e l)) /\
  -1074 <= snd (shr_fexp prec emax m e l).
Proof.
  intros Hm He. unfold shr_fexp, shr.
  destruct m as [|mm|mm]; try lia. simpl Zdigits2.
  rewrite fexp_eq.
  destruct (Z.max (Z.pos (digits2_pos mm) + e - 53) (-1074) - e) as [|p|p] eqn:Hn;
    simpl fst; simpl snd; rewrite ?shr_m_of_loc; try lia.
  rewrite shr_m_iter_pos by (rewrite shr_m_of_loc; lia).
  rewrite shr_m_of_loc. split; [|lia].
  rewrite Z.shiftr_div_pow2 by lia.
  pose proof (digits2_bounds mm) as [Hlo _].
  assert (Hp : Zpos p <= Zpos (digits2_pos mm) - 1) by lia.
  assert (2 ^ Zpos p <= 2 ^ (Zpos (digits2_pos mm) - 1))
    by (apply Z.pow_le_mono_r; lia).
  apply Z.div_str_pos. split; [apply Z.pow_pos_nonneg; lia | lia].
Qed.

Lemma round_nearest_even_positive m l : 0 < m -> 0 < round_nearest_even m l.
Proof.
  intros Hm. unfold round_nearest_even.
  destruct l as [|[]]; try lia. destruct (Z.even m); lia.
Qed.

Lemma binary_round_aux_nonzero s m e l z :
  0 < m -> -1074 <= e -> binary_round_aux prec emax s m e l <> S754_zero z.
Proof.
  intros Hm He. unfold binary_round_aux.
  pose proof (shr_fexp_positive m e l Hm He) as [H1 H1'].
  destruct (shr_fexp prec emax m e l) as [mrs' e']. simpl in H1, H1'.
  pose proof (shr_fexp_positive _ e' loc_Exact
                (round_nearest_even_positive _ (loc_of_shr_record mrs') H1) H1')
    as [H2 _].
  destruct (shr_fexp prec emax _ e' loc_Exact) as [mrs'' e'']. simpl in H2.
  destruct (shr_m mrs'') as [|p|p]; try lia.
  destruct (e'' <=? emax - prec); discriminate.
Qed.

Lemma iter_xO_value d : forall m, Zpos (Pos.iter xO m d) = Zpos m * 2 ^ Zpos d.
Proof.
  induction d as [|d IH] using Pos.peano_ind; intros m.
  - simpl. lia.
  - rewrite Pos.iter_succ, Pos2Z.inj_xO, IH, Pos2Z.inj_succ, Z.pow_succ_r; lia.
Qed.

Lemma shl_align_value m e e' :
  e' <= e -> Zpos (fst (shl_align m e e')) = Zpos m * 2 ^ (e - e').
Proof.
  intros Hle. unfold shl_align.
  destruct (e' - e) as [|d|d] eqn:Hd; simpl fst.
  - replace (e - e') with 0 by lia. lia.
  - lia.
  - replace (e - e') with (Zpos d) by lia.
    apply iter_xO_value.
Qed.

Lemma shl_align_snd m e e' : e' <= snd (shl_align m e e') \/ snd (shl_align m e e') = e.
Proof.
  unfold shl_align. destruct (e' - e) eqn:Hd; simpl; lia.
Qed.

Lemma binary_round_nonzero s m e z :
  -1074 <= e -> binary_round prec emax s m e <> S754_zero z.
Proof.
  intros He. unfold binary_round.
  pose proof (shl_align_snd m e (fexp (Zpos (digits2_pos m) + e))) as Hs.
  destruct (shl_align m e _) as [mz ez]. simpl in Hs.
  apply binary_round_aux_nonzero; [lia|].
  rewrite fexp_eq in Hs. lia.
Qed.

Lemma binary_normalize_zero m e sz z :
  -1074 <= e -> binary_normalize prec emax m e sz = S754_zero z -> m = 0.
Proof.
  intros He. destruct m as [|p|p]; simpl; [reflexivity| |];
    intros H; exfalso; exact (binary_round_nonzero _ _ _ _ He H).
Qed.

Lemma bounded_exponent m e :
  bounded prec emax m e = true ->
  e = fexp (Zpos (digits2_pos m) + e) /\ -1074 <= e.
Proof.
  unfold bounded, canonical_mantissa. intros H.
  apply andb_true_iff in H as [H _]. apply Z.eqb_eq in H.
  rewrite fexp_eq in *. lia.
Qed.

Lemma digits2_mul_pow2 m m' k :
  0 <= k -> Zpos m' = Zpos m * 2 ^ k ->
  Zpos (digits2_pos m') = Zpos (digits2_pos m) + k.
Proof.
  intros Hk Hm. rewrite !digits2_log2, Hm.
  rewrite Z.log2_mul_pow2 by lia. lia.
Qed.

(** Two canonical finite floats whose mantissas agree once aligned to a
    common exponent are the same float. *)
Lemma aligned_mantissas_eq ma ea mb eb :
  bounded prec emax ma ea = true -> bounded prec emax mb eb = true ->
  Zpos (fst (shl_align mb eb (Z.min eb ea))) =
  Zpos (fst (shl_align ma ea (Z.min eb ea))) ->
  ma = mb /\ ea = eb.
Proof.
  intros Ha Hb Heq.
  apply bounded_exponent in Ha as [Ha _], Hb as [Hb _].
  rewrite !shl_align_value in Heq by lia.
  rewrite fexp_eq in Ha, Hb.
  destruct (Z.lt_trichotomy ea eb) as [Hlt|[Heq'|Hgt]].
  - exfalso. replace (Z.min eb ea) with ea in Heq by lia.
    replace (ea - ea) with 0 in Heq by lia. rewrite Z.mul_1_r in Heq.
    symmetry in Heq.
    pose proof (digits2_mul_pow2 mb ma (eb - ea) ltac:(lia) Heq). lia.
  - subst eb. replace (Z.min ea ea) with ea in Heq by lia.
    replace (ea - ea) with 0 in Heq by lia. lia.
  - exfalso. replace (Z.min eb ea) with eb in Heq by lia.
    replace (eb - eb) with 0 in Heq by lia. rewrite Z.mul_1_r in Heq.
    pose proof (digits2_mul_pow2 ma mb (ea - eb) ltac:(lia) Heq). lia.
Qed.

(** A difference of two binary64 numbers is a zero only when they are
    equal as floats: gradual underflow leaves no other way. *)
Lemma SF64sub_zero b a z :
  valid_binary b = true -> valid_binary a = true ->
  SF64sub b a = S754_zero z -> SFeqb b a = true.
Proof.
  intros Hb Ha. unfold SF64sub, SFsub, SFeqb.
  destruct b as [sb|sb| |sb mb eb], a as [sa|sa| |sa ma ea]; simpl;
    try discriminate; try reflexivity.
  - destruct sb, sa; discriminate.
  - simpl in Ha, Hb. intros H.
    pose proof (bounded_exponent _ _ Ha) as [_ Hea].
    pose proof (bounded_exponent _ _ Hb) as [_ Heb].
    apply binary_normalize_zero in H; [|lia].
    assert (Hs : sb = sa /\ Zpos (fst (shl_align mb eb (Z.min eb ea))) =
                           Zpos (fst (shl_align ma ea (Z.min eb ea)))).
    { destruct sb, sa; simpl in H; split; try reflexivity; lia. }
    destruct Hs as [-> Hm].
    apply aligned_mantissas_eq in Hm as [-> ->]; try done.
    rewrite Z.compare_refl, Pos.compare_cont_refl. destruct sa; reflexivity.
Qed.

Lemma SFcompare_eq_finite s1 m1 e1 s2 m2 e2 :
  SFcompare (S754_finite s1 m1 e1) (S754_finite s2 m2 e2) = Some Eq ->
  s1 = s2 /\ m1 = m2 /\ e1 = e2.
Proof.
  simpl. intros H.
  destruct s1, s2; try discriminate;
    destruct (Z.compare_spec e1 e2); try discriminate; subst;
    (destruct (Pos.compare_cont Eq m1 m2) eqn:Hc; try discriminate;
     apply Pos.compare_eq in Hc; subst; done).
Qed.

Lemma SFeqb_ltb_r a b y : SFeqb a b = true -> SFltb y a = SFltb y b.
Proof.
  unfold SFeqb, SFltb.
  destruct (SFcompare a b) as [[]|] eqn:Hc; try discriminate. intros _.
  destruct a as [sa|sa| |sa ma ea], b as [sb|sb| |sb mb eb];
    try (apply SFcompare_eq_finite in Hc as (-> & -> & ->); reflexivity);
    simpl in Hc; try discriminate;
    try (destruct sa; discriminate); try (destruct sb; discriminate).
  - destruct y; reflexivity.
  - destruct sa, sb; try discriminate; reflexivity.
Qed.

Lemma is_zero_spec x :
  is_zero x = match Prim2SF x with S754_zero _ => true | _ => false end.
Proof.
  unfold is_zero. rewrite FloatAxioms.eqb_spec.
  change (Prim2SF zero) with (S754_zero false).
  unfold SFeqb. destruct (Prim2SF x) as [s|s| |s m e]; simpl; try reflexivity.
  - destruct s; reflexivity.
  - destruct s; reflexivity.
Qed.

(** Equal ordinates compare alike against any third number. *)
Lemma gt_of_eqb (a b y : float) : (a =? b)%float = true -> gt a y = gt b y.
Proof.
  unfold gt. rewrite FloatAxioms.eqb_spec, !FloatAxioms.ltb_spec. apply SFeqb_ltb_r.
Qed.

(** When exactly one of two ordinates lies above [y], their difference is
    not a zero. *)
Lemma sub_nonzero_of_straddle (yi yj y : float) :
  xorb (gt yi y) (gt yj y) = true -> is_zero (yj - yi) = false.
Proof.
  intros Hx. rewrite is_zero_spec, FloatAxioms.sub_spec.
  destruct (SF64sub (Prim2SF yj) (Prim2SF yi)) as [z| | |] eqn:Hsub; try reflexivity.
  exfalso.
  apply SF64sub_zero in Hsub; try apply Prim2SF_valid.
  rewrite <- FloatAxioms.eqb_spec in Hsub.
  rewrite (gt_of_eqb _ _ y Hsub) in Hx.
  rewrite xorb_nilpotent in Hx. discriminate.
Qed.

End Binary64.

(** ** Grid dimensions *)

(** C4. In both scripts the grid dimensions computed by truncation,
    [int(360 / RESOLUTION)] and [int(180 / RESOLUTION)], are the constants
    the comments announce and coincide with the rounded quotients of the
    specification: 18000 columns by 9000 rows at 0.02 degrees, 7200 columns
    by 3600 rows at 0.05 degrees. *)
Theorem grid_dimensions :
  grid_dimension 360 Main.RESOLUTION = Ok Main.WIDTH /\
  grid_dimension 180 Main.RESOLUTION = Ok Main.HEIGHT /\
  spec_grid_dimension 360 Main.RESOLUTION = Ok Main.WIDTH /\
  spec_grid_dimension 180 Main.RESOLUTION = Ok Main.HEIGHT /\
  Main.WIDTH = 18000 /\ Main.HEIGHT = 9000 /\
  grid_dimension 360 Fast.RESOLUTION = Ok Fast.WIDTH /\
  grid_dimension 180 Fast.RESOLUTION = Ok Fast.HEIGHT /\
  spec_grid_dimension 360 Fast.RESOLUTION = Ok Fast.WIDTH /\
  spec_grid_dimension 180 Fast.RESOLUTION = Ok Fast.HEIGHT /\
  Fast.WIDTH = 7200 /\ Fast.HEIGHT = 3600.
Proof. repeat split; vm_compute; reflexivity. Qed.

(** Truncation and rounding part ways as soon as the quotient has a
    fractional part of one half or more: at 0.07 degrees the code's formula
    gives 5142 columns, the rounded quotient 5143. *)
Lemma truncated_dimension_differs_from_rounded :
  grid_dimension 360 0.07 = Ok 5142 /\ spec_grid_dimension 360 0.07 = Ok 5143.
Proof. split; vm_compute; reflexivity. Qed.

(** ** The coordinate mapper *)

Lemma lat_lon_to_grid_split RESOLUTION HEIGHT WIDTH lat lon :
  lat_lon_to_grid RESOLUTION HEIGHT WIDTH lat lon =
  (row ← row_of_lat RESOLUTION HEIGHT lat;
   col ← col_of_lon RESOLUTION WIDTH lon;
   Ok (row, col)).
Proof.
  unfold lat_lon_to_grid, row_of_lat, col_of_lon.
  destruct (truediv (90 - lat) RESOLUTION) as [q|]; simpl; [|reflexivity].
  destruct (int_of_float q) as [row|]; simpl; [|reflexivity].
  destruct (truediv (lon + 180) RESOLUTION) as [q'|]; simpl; [|reflexivity].
  destruct (int_of_float q') as [col|]; reflexivity.
Qed.

Lemma cell_of_center_split RESOLUTION HEIGHT WIDTH row col :
  row_round_trips RESOLUTION HEIGHT row = true ->
  col_round_trips RESOLUTION WIDTH col = true ->
  cell_of_center RESOLUTION HEIGHT WIDTH row col = Ok (row, col).
Proof.
  unfold row_round_trips, col_round_trips, cell_of_center, grid_to_lat_lon.
  destruct (float_of_int row) as [r|]; [|discriminate].
  destruct (float_of_int col) as [c|]; [|discriminate].
  simpl. rewrite lat_lon_to_grid_split.
  destruct (row_of_lat _ _ _) as [row'|]; [|discriminate].
  destruct (col_of_lon _ _ _) as [col'|]; [|discriminate].
  intros Hr Hc. apply Z.eqb_eq in Hr, Hc. subst. reflexivity.
Qed.

Lemma all_in_chunks_spec (f : Z -> bool) (chunks k : Z) :
  all_in_chunks f chunks = true -> 0 <= k < 100 * chunks -> f k = true.
Proof.
  unfold all_in_chunks. intros Hall Hk.
  rewrite forallb_forall in Hall.
  assert (Hchunk : In (k / 100) (seqZ 0 chunks)).
  { apply list_elem_of_In, elem_of_seqZ.
    split; [apply Z.div_pos; lia | apply Z.div_lt_upper_bound; lia]. }
  specialize (Hall _ Hchunk). cbv beta in Hall.
  rewrite forallb_forall in Hall. apply Hall.
  apply list_elem_of_In, elem_of_seqZ.
  pose proof (Z.div_mod k 100 ltac:(lia)).
  pose proof (Z.mod_pos_bound k 100 ltac:(lia)). lia.
Qed.

Lemma main_rows_round_trip :
  all_in_chunks (row_round_trips Main.RESOLUTION Main.HEIGHT) 90 = true.
Proof. vm_compute. reflexivity. Qed.

Lemma main_cols_round_trip :
  all_in_chunks (col_round_trips Main.RESOLUTION Main.WIDTH) 180 = true.
Proof. vm_compute. reflexivity. Qed.

(** C3. In the ray-casting script, with its resolution of 0.02 degrees and
    its 9000 by 18000 grid, mapping the center of any in-range cell back to
    a cell returns that cell: [toCell(toCenter(row, col)) = (row, col)],
    computed in binary64 as the script does. *)
Theorem center_round_trip (row col : Z) :
  0 <= row < Main.HEIGHT -> 0 <= col < Main.WIDTH ->
  cell_of_center Main.RESOLUTION Main.HEIGHT Main.WIDTH row col = Ok (row, col).
Proof.
  intros Hrow Hcol. apply cell_of_center_split.
  - exact (all_in_chunks_spec _ _ _ main_rows_round_trip Hrow).
  - exact (all_in_chunks_spec _ _ _ main_cols_round_trip Hcol).
Qed.

Lemma center_round_trip_witness :
  cell_of_center Main.RESOLUTION Main.HEIGHT Main.WIDTH 4500 17999 = Ok (4500, 17999).
Proof. apply (center_round_trip 4500 17999); unfold Main.HEIGHT, Main.WIDTH; lia. Defined.

Lemma fast_rows_round_trip :
  all_in_chunks (row_round_trips Fast.RESOLUTION Fast.HEIGHT) 36 = true.
Proof. vm_compute. reflexivity. Qed.

Lemma fast_cols_round_trip :
  all_in_chunks (col_round_trips Fast.RESOLUTION Fast.WIDTH) 72 = true.
Proof. vm_compute. reflexivity. Qed.

(** The same round trip with the constants of the fast script, whose row
    loop uses the cell-center formulas at 0.05 degrees on a 3600 by 7200
    grid. *)
Lemma center_round_trip_fast_constants (row col : Z) :
  0 <= row < Fast.HEIGHT -> 0 <= col < Fast.WIDTH ->
  cell_of_center Fast.RESOLUTION Fast.HEIGHT Fast.WIDTH row col = Ok (row, col).
Proof.
  intros Hrow Hcol. apply cell_of_center_split.
  - exact (all_in_chunks_spec _ _ _ fast_rows_round_trip Hrow).
  - exact (all_in_chunks_spec _ _ _ fast_cols_round_trip Hcol).
Qed.

(** ** The saturating clamp of the coordinate mapper *)

Lemma int_of_float_finite (x : float) :
  is_finite x = true -> exists n, int_of_float x = Ok n.
Proof.
  unfold is_finite, int_of_float, Prim2SF.
  destruct (is_nan x); [discriminate|].
  destruct (is_infinity x); [discriminate|]. intros _.
  destruct (is_zero x); [eauto|].
  destruct (Z.frexp x) as [r ex].
  destruct (shr_fexp _ _ _ _ _) as [mrs e'].
  destruct (shr_m mrs); eauto.
Qed.

Lemma int_of_float_not_finite (x : float) :
  is_finite x = false ->
  exists e, int_of_float x = Raise e /\ (e = ValueError \/ e = OverflowError).
Proof.
  unfold is_finite, int_of_float, Prim2SF.
  destruct (is_nan x); [eauto|].
  destruct (is_zero x) eqn:Hz.
  - unfold is_zero in Hz. unfold is_infinity.
    intros H. exfalso. revert H Hz.
    rewrite !FloatAxioms.eqb_spec, abs_spec.
    change (Prim2SF infinity) with (S754_infinity false).
    change (Prim2SF zero) with (S754_zero false).
    destruct (Prim2SF x) as [s|s| |s m e]; simpl; try discriminate;
      destruct s; discriminate.
  - destruct (is_infinity x); [eauto|discriminate].
Qed.

(** C6, as amended. Whenever the two scaled offsets [(90 - lat) /
    RESOLUTION] and [(lon + 180) / RESOLUTION] are finite floats, which is
    the case at the poles, on the antimeridian and for ordinary out-of-range
    coordinates, [lat_lon_to_grid] raises nothing and returns a row in
    [0, HEIGHT - 1] and a column in [0, WIDTH - 1]. When one of them is NaN
    or infinite, the conversion to [int] raises [ValueError] or
    [OverflowError] before the clamp is reached. *)
Theorem lat_lon_to_grid_saturates (RESOLUTION : float) (HEIGHT WIDTH : Z)
    (lat lon : float) :
  0 < HEIGHT -> 0 < WIDTH -> is_zero RESOLUTION = false ->
  if is_finite ((90 - lat) / RESOLUTION) && is_finite ((lon + 180) / RESOLUTION)
  then exists row col,
      lat_lon_to_grid RESOLUTION HEIGHT WIDTH lat lon = Ok (row, col) /\
      0 <= row <= HEIGHT - 1 /\ 0 <= col <= WIDTH - 1
  else exists e,
      lat_lon_to_grid RESOLUTION HEIGHT WIDTH lat lon = Raise e /\
      (e = ValueError \/ e = OverflowError).
Proof.
  intros HH HW Hres. unfold lat_lon_to_grid, truediv. rewrite Hres. simpl.
  destruct (is_finite ((90 - lat) / RESOLUTION)) eqn:Hrow; simpl.
  - destruct (int_of_float_finite _ Hrow) as [row ->]. simpl.
    destruct (is_finite ((lon + 180) / RESOLUTION)) eqn:Hcol.
    + destruct (int_of_float_finite _ Hcol) as [col ->]. simpl.
      eexists _, _. split; [reflexivity|]. lia.
    + destruct (int_of_float_not_finite _ Hcol) as (e & -> & He). simpl. eauto.
  - destruct (int_of_float_not_finite _ Hrow) as (e & -> & He). simpl. eauto.
Qed.

Lemma lat_lon_to_grid_saturates_witness :
  if is_finite ((90 - 1000) / Main.RESOLUTION) &&
     is_finite ((-500 + 180) / Main.RESOLUTION)
  then exists row col,
      lat_lon_to_grid Main.RESOLUTION Main.HEIGHT Main.WIDTH 1000 (-500) = Ok (row, col) /\
      0 <= row <= Main.HEIGHT - 1 /\ 0 <= col <= Main.WIDTH - 1
  else exists e,
      lat_lon_to_grid Main.RESOLUTION Main.HEIGHT Main.WIDTH 1000 (-500) = Raise e /\
      (e = ValueError \/ e = OverflowError).
Proof.
  apply (lat_lon_to_grid_saturates Main.RESOLUTION Main.HEIGHT Main.WIDTH 1000 (-500));
    [unfold Main.HEIGHT; lia | unfold Main.WIDTH; lia | reflexivity].
Defined.

(** C6 as stated fails: a latitude of -1e308 is a real number, the offset
    [90 - lat] is still finite, but its quotient by 0.02 overflows to
    infinity and [int] raises [OverflowError]. *)
Lemma lat_lon_to_grid_overflows :
  lat_lon_to_grid Main.RESOLUTION Main.HEIGHT Main.WIDTH (-1e308) 0
  = Raise OverflowError.
Proof. vm_compute. reflexivity. Qed.

(** The corners of the domain do saturate: the poles and the antimeridian
    map to the first and the last row and column, far-away coordinates to
    the boundary cells. *)
Lemma lat_lon_to_grid_boundaries :
  lat_lon_to_grid Main.RESOLUTION Main.HEIGHT Main.WIDTH 90 (-180) = Ok (0, 0) /\
  lat_lon_to_grid Main.RESOLUTION Main.HEIGHT Main.WIDTH (-90) 180 = Ok (8999, 17999) /\
  lat_lon_to_grid Main.RESOLUTION Main.HEIGHT Main.WIDTH 1000 (-500) = Ok (0, 0) /\
  lat_lon_to_grid Main.RESOLUTION Main.HEIGHT Main.WIDTH (-1e306) 1e306 = Ok (8999, 17999).
Proof. repeat split; vm_compute; reflexivity. Qed.

(** ** Ray casting *)

Lemma ray_crosses_total (x y : float) (pi pj : position) :
  exists b, ray_crosses x y pi pj = Ok b.
Proof.
  destruct pi as [xi yi], pj as [xj yj]. unfold ray_crosses.
  destruct (xorb (gt yi y) (gt yj y)) eqn:Hx; [|eauto].
  unfold truediv. rewrite (sub_nonzero_of_straddle _ _ _ Hx). simpl. eauto.
Qed.

Lemma point_in_polygon_loop (x y : float) (polygon : list position) (l : list Z) :
  forall inside j,
    (forall i, i ∈ l -> 0 <= i < Z.of_nat (length polygon)) ->
    (l <> [] -> 0 <= j < Z.of_nat (length polygon)) ->
    exists st,
      foldM (fun (st : bool * Z) (i : Z) =>
               let '(inside, j) := st in
               pi ← getitem polygon i;
               pj ← getitem polygon j;
               toggle ← ray_crosses x y pi pj;
               Ok (if toggle : bool then negb inside else inside, i))
            (inside, j) l = Ok st.
Proof.
  induction l as [|i l IH]; intros inside j Hl Hj; simpl; [eauto|].
  destruct (getitem_in_range polygon i) as (pi & _ & ->);
    [apply Hl; left|]. simpl.
  destruct (getitem_in_range polygon j) as (pj & _ & ->);
    [apply Hj; discriminate|]. simpl.
  destruct (ray_crosses_total x y pi pj) as [b ->]. simpl.
  apply IH.
  - intros k Hk. apply Hl. right. exact Hk.
  - intros _. apply Hl. left.
Qed.

(** C9. In [point_in_polygon] the quotient by [yj - yi] is evaluated only
    when [(yi > y) != (yj > y)]; that test is false whenever [yi == yj], so
    a horizontal edge never toggles [inside]; when the test is true the
    denominator is not a zero; and so, for every ring and every query point,
    the function returns a boolean and no [ZeroDivisionError] is raised. *)
Theorem ray_casting_division_guard :
  (forall x y xi yi xj yj,
      xorb (gt yi y) (gt yj y) = false ->
      ray_crosses x y (xi, yi) (xj, yj) = Ok false) /\
  (forall y yi yj, (yi =? yj)%float = true -> xorb (gt yi y) (gt yj y) = false) /\
  (forall x y xi yi xj yj,
      (yi =? yj)%float = true -> ray_crosses x y (xi, yi) (xj, yj) = Ok false) /\
  (forall y yi yj, xorb (gt yi y) (gt yj y) = true -> is_zero (yj - yi) = false) /\
  (forall x y polygon, exists inside, point_in_polygon x y polygon = Ok inside).
Proof.
  assert (Hguard : forall y yi yj,
             (yi =? yj)%float = true -> xorb (gt yi y) (gt yj y) = false).
  { intros y yi yj Heq. rewrite (gt_of_eqb _ _ y Heq). apply xorb_nilpotent. }
  assert (Hskip : forall x y xi yi xj yj,
             xorb (gt yi y) (gt yj y) = false ->
             ray_crosses x y (xi, yi) (xj, yj) = Ok false).
  { intros x y xi yi xj yj Hx. unfold ray_crosses. rewrite Hx. reflexivity. }
  repeat split.
  - exact Hskip.
  - exact Hguard.
  - intros x y xi yi xj yj Heq. apply Hskip, Hguard, Heq.
  - intros y yi yj. apply sub_nonzero_of_straddle.
  - intros x y polygon. unfold point_in_polygon.
    destruct (point_in_polygon_loop x y polygon
                (range 0 (Z.of_nat (length polygon))) false
                (Z.of_nat (length polygon) - 1)) as [[inside j] ->].
    + intros i Hi. apply elem_of_range in Hi. lia.
    + intros Hne. destruct polygon; [exfalso; apply Hne; reflexivity|].
      simpl length. lia.
    + simpl. eauto.
Qed.
(** ** Run-length rows *)

Section RunLength.

Variable WIDTH : Z.
Variable land : Z -> bool.
Variable total0 : Z.

Local Abbreviation rle_inv := (rle_inv land total0).

Lemma StronglySorted_snoc {A : Type} (R : A -> A -> Prop) (l : list A) (y : A) :
  StronglySorted R l -> Forall (fun x => R x y) l -> StronglySorted R (l ++ [y]).
Proof.
  induction 1 as [|x l Hl IH Hx]; intros Hy; simpl.
  - repeat constructor.
  - apply Forall_cons in Hy as [Hxy Hy]. constructor; [apply IH, Hy|].
    apply Forall_app. split; [exact Hx | repeat constructor; exact Hxy].
Qed.

Lemma run_cells_snoc runs s l : run_cells (runs ++ [(s, l)]) = run_cells runs + l.
Proof.
  unfold run_cells. rewrite fmap_app, foldr_app. simpl.
  generalize (snd <$> runs). intros ls. induction ls as [|x ls IH]; simpl; lia.
Qed.

Hypothesis land_negative : forall c, c < 0 -> land c = false.

Lemma rle_inv_init : rle_inv 0 (RleState [] false 0 total0).
Proof.
  split; simpl.
  - constructor.
  - constructor.
  - left. reflexivity.
  - intros c Hc. lia.
  - unfold run_cells. simpl. lia.
Qed.

Lemma rle_inv_step (n : Z) (st : rle_state) :
  0 <= n -> rle_inv n st -> rle_inv (n + 1) (rle_step st n (land n)).
Proof.
  intros Hn [Hclosed Hsorted Hopen Hcover Htotal].
  unfold rle_step.
  destruct (land n) eqn:Hland, (in_land st) eqn:Hin; simpl.
  - (* land, run already open *)
    destruct Hopen as (Hs & Hall & Hprev & Hbefore).
    split; rewrite ?Hin; simpl.
    + eapply Forall_impl; [exact Hclosed|]. intros run [? ?]. split; [done|lia].
    + exact Hsorted.
    + repeat split; try lia; try done.
      intros c Hc. destruct (Z.eq_dec c n) as [->|]; [done|apply Hall; lia].
    + intros c Hc Hl. destruct (Z.eq_dec c n) as [->|].
      * right. split; [done|lia].
      * apply Hcover; [lia|done].
    + exact Htotal.
  - (* land, a run opens here *)
    split; simpl.
    + eapply Forall_impl; [exact Hclosed|]. intros run [? ?]. split; [done|lia].
    + exact Hsorted.
    + repeat split; try lia.
      * intros c Hc. replace c with n by lia. done.
      * destruct Hopen as [->|Hsea]; [apply land_negative; lia|].
        exact Hsea.
      * eapply Forall_impl; [exact Hclosed|]. intros run [? ?]. done.
    + intros c Hc Hl. destruct (Z.eq_dec c n) as [->|].
      * right. split; [done|lia].
      * destruct (Hcover c ltac:(lia) Hl) as [?|[? _]]; [left; done|discriminate].
    + exact Htotal.
  - (* sea, the open run closes here *)
    destruct Hopen as (Hs & Hall & Hprev & Hbefore).
    split; simpl.
    + apply Forall_app. split.
      * eapply Forall_impl; [exact Hclosed|]. intros run [? ?]. split; [done|lia].
      * repeat constructor; simpl; try lia.
        -- intros c Hc. apply Hall. lia.
        -- exact Hprev.
        -- replace (start st + (n - start st)) with n by lia. exact Hland.
    + apply StronglySorted_snoc; [exact Hsorted|].
      eapply Forall_impl; [exact Hbefore|]. intros run Hr. unfold run_before. simpl in *. lia.
    + right. replace (n + 1 - 1) with n by lia. exact Hland.
    + intros c Hc Hl. left.
      destruct (Z.eq_dec c n) as [->|]; [congruence|].
      destruct (Hcover c ltac:(lia) Hl) as [(run & Hrun & ?)|[_ ?]].
      * exists run. split; [apply elem_of_app; left; done|done].
      * exists (start st, n - start st). split; [|simpl; lia].
        apply elem_of_app. right. apply list_elem_of_singleton. reflexivity.
    + rewrite run_cells_snoc. lia.
  - (* sea, no run open *)
    split; rewrite ?Hin; simpl.
    + eapply Forall_impl; [exact Hclosed|]. intros run [? ?]. split; [done|lia].
    + exact Hsorted.
    + right. replace (n + 1 - 1) with n by lia. exact Hland.
    + intros c Hc Hl. destruct (Z.eq_dec c n) as [->|]; [congruence|].
      apply Hcover; [lia|done].
    + exact Htotal.
Qed.

Hypothesis land_beyond : forall c, WIDTH <= c -> land c = false.

(** What the statements after the loop make of the invariant. *)
Lemma rle_close_spec (st : rle_state) :
  0 <= WIDTH -> rle_inv WIDTH st ->
  let '(runs, total) := rle_close WIDTH st in
  Forall (maximal_run land) runs /\
  StronglySorted run_before runs /\
  Forall (fun run => run.1 + run.2 <= WIDTH) runs /\
  (forall c, land c = true <-> exists run, run ∈ runs /\ run.1 <= c < run.1 + run.2) /\
  (land (WIDTH - 1) = true -> exists s, last runs = Some (s, WIDTH - s)) /\
  total = total0 + run_cells runs.
Proof.
  intros HW [Hclosed Hsorted Hopen Hcover Htotal]. unfold rle_close.
  assert (Hin_run : forall runs c,
             Forall (maximal_run land) runs ->
             (exists run, run ∈ runs /\ run.1 <= c < run.1 + run.2) -> land c = true).
  { intros runs c Hruns (run & Hrun & Hc).
    rewrite Forall_forall in Hruns. apply (Hruns run Hrun). exact Hc. }
  assert (Hrange : forall c, land c = true -> 0 <= c < WIDTH).
  { intros c Hc. destruct (Z.lt_ge_cases c 0) as [Hneg|?].
    - rewrite land_negative in Hc by done. discriminate.
    - destruct (Z.lt_ge_cases c WIDTH) as [?|Hbig]; [lia|].
      rewrite land_beyond in Hc by done. discriminate. }
  destruct (in_land st) eqn:Hin.
  - destruct Hopen as (Hs & Hall & Hprev & Hbefore).
    assert (Hruns : Forall (maximal_run land) (segments st ++ [(start st, WIDTH - start st)])).
    { apply Forall_app. split.
      - eapply Forall_impl; [exact Hclosed|]. intros run [? ?]. done.
      - repeat constructor; simpl; try lia; try done.
        + intros c Hc. apply Hall. lia.
        + apply land_beyond. lia. }
    repeat split.
    + exact Hruns.
    + apply StronglySorted_snoc; [exact Hsorted|].
      eapply Forall_impl; [exact Hbefore|]. intros run Hr. unfold run_before. simpl in *. lia.
    + apply Forall_app. split.
      * eapply Forall_impl; [exact Hclosed|]. intros run [? ?]. lia.
      * repeat constructor. simpl. lia.
    + intros Hc. destruct (Hcover c (Hrange c Hc) Hc) as [(run & Hrun & ?)|[_ ?]].
      * exists run. split; [apply elem_of_app; left; done|done].
      * exists (start st, WIDTH - start st). split.
        -- apply elem_of_app. right. apply list_elem_of_singleton. reflexivity.
        -- simpl. pose proof (Hrange c Hc). lia.
    + apply Hin_run, Hruns.
    + intros _. exists (start st). apply last_snoc.
    + rewrite run_cells_snoc. lia.
  - assert (Hruns : Forall (maximal_run land) (segments st)).
    { eapply Forall_impl; [exact Hclosed|]. intros run [? ?]. done. }
    repeat split.
    + exact Hruns.
    + exact Hsorted.
    + eapply Forall_impl; [exact Hclosed|]. intros run [? ?]. lia.
    + intros Hc. destruct (Hcover c (Hrange c Hc) Hc) as [?|[? _]]; [done|discriminate].
    + apply Hin_run, Hruns.
    + intros Hlast. destruct Hopen as [->|Hsea]; [|congruence].
      rewrite land_negative in Hlast by lia. discriminate.
    + exact Htotal.
Qed.

End RunLength.

(** ** The run-length encoder of [save_grid_compact_json] *)

Lemma is_land_negative (row : list Z) (c : Z) : c < 0 -> is_land row c = false.
Proof. intros Hc. unfold is_land. destruct (Z.leb_spec 0 c); [lia|reflexivity]. Qed.

Lemma is_land_beyond (row : list Z) (c : Z) :
  Z.of_nat (length row) <= c -> is_land row c = false.
Proof.
  intros Hc. unfold is_land. rewrite lookup_ge_None_2 by lia. apply andb_false_r.
Qed.

Lemma is_land_lookup (row : list Z) (c : nat) (v : Z) :
  row !! c = Some v -> is_land row (Z.of_nat c) = (v =? 1).
Proof.
  intros Hv. unfold is_land. rewrite Nat2Z.id, Hv.
  destruct (Z.leb_spec 0 (Z.of_nat c)); [reflexivity|lia].
Qed.

Lemma encode_row_loop (WIDTH total : Z) (row : list Z) (n : nat) :
  (n <= length row)%nat ->
  exists st,
    foldM (fun st col => v ← getitem row col; Ok (rle_step st col (v =? 1)))
          (RleState [] false 0 total) (seqZ 0 (Z.of_nat n)) = Ok st /\
    rle_inv (is_land row) total (Z.of_nat n) st.
Proof.
  induction n as [|n IH]; intros Hn.
  - exists (RleState [] false 0 total). split; [reflexivity|]. apply rle_inv_init.
  - destruct IH as (st & Hfold & Hinv); [lia|].
    rewrite seqZ_S, foldM_app, Hfold, Z.add_0_l.
    cbn [mbind result_bind foldM].
    destruct (getitem_in_range row (Z.of_nat n)) as (v & Hv & ->); [lia|].
    cbn [mbind result_bind].
    rewrite Nat2Z.id in Hv. rewrite <- (is_land_lookup _ _ _ Hv).
    eexists. split; [reflexivity|].
    replace (Z.of_nat (S n)) with (Z.of_nat n + 1) by lia.
    apply rle_inv_step; [apply is_land_negative | lia | exact Hinv].
Qed.

Lemma lookup_replay (runs : list (Z * Z)) : forall (row0 : list Z) (c : nat),
  fold_left or_run runs row0 !! c =
  (fun v => if existsb (fun run => (run.1 <=? Z.of_nat c) && (Z.of_nat c <? run.1 + run.2)) runs
            then Z.lor v 1 else v) <$> row0 !! c.
Proof.
  induction runs as [|run runs IH]; intros row0 c; simpl.
  - destruct (row0 !! c); reflexivity.
  - rewrite IH. unfold or_run at 1. rewrite list_lookup_imap.
    destruct (row0 !! c) as [v|]; simpl; [|reflexivity].
    destruct ((run.1 <=? Z.of_nat c) && (Z.of_nat c <? run.1 + run.2)); simpl.
    + f_equal. rewrite <- Z.lor_assoc, Z.lor_diag.
      destruct (existsb _ runs); reflexivity.
    + reflexivity.
Qed.

Lemma replay_spec (row : list Z) (runs : list (Z * Z)) :
  (forall c, is_land row c = true <->
             exists run, run ∈ runs /\ run.1 <= c < run.1 + run.2) ->
  replay (Z.of_nat (length row)) runs = land_mask row.
Proof.
  intros Hcover. apply list_eq. intros c. unfold replay, land_mask.
  rewrite lookup_replay, list_lookup_fmap, Nat2Z.id.
  destruct (row !! c) as [v|] eqn:Hv.
  - rewrite lookup_replicate_2 by (apply lookup_lt_Some in Hv; lia). simpl. f_equal.
    rewrite <- (is_land_lookup _ _ _ Hv).
    destruct (is_land row (Z.of_nat c)) eqn:Hl.
    + apply Hcover in Hl as (run & Hrun & Hc).
      replace (existsb _ runs) with true; [reflexivity|].
      symmetry. apply existsb_exists. exists run.
      split; [apply list_elem_of_In; exact Hrun|].
      apply andb_true_iff. split; [apply Z.leb_le | apply Z.ltb_lt]; lia.
    + replace (existsb _ runs) with false; [reflexivity|].
      symmetry. apply not_true_is_false. intros Hex.
      apply existsb_exists in Hex as (run & Hrun & Hc).
      apply andb_true_iff in Hc as [Hc1 Hc2].
      apply Z.leb_le in Hc1. apply Z.ltb_lt in Hc2.
      assert (is_land row (Z.of_nat c) = true); [|congruence].
      apply Hcover. exists run. split; [apply list_elem_of_In; exact Hrun | lia].
  - replace (replicate (length row) 0 !! c) with (@None Z); [reflexivity|].
    symmetry. apply lookup_replicate_None. apply lookup_ge_None in Hv. lia.
Qed.

Lemma land_mask_boolean (row : list Z) :
  Forall (fun v => v = 0 \/ v = 1) row -> land_mask row = row.
Proof.
  unfold land_mask. induction 1 as [|v row [->| ->] _ IH]; [done| |];
    rewrite fmap_cons, IH; reflexivity.
Qed.

(** The row loop of [save_grid_compact_json] on a row of [WIDTH] cells:
    it raises nothing, and its runs are the maximal land runs in ascending
    order, covering exactly the land columns. *)
Lemma encode_row_runs (WIDTH total : Z) (row : list Z) :
  Z.of_nat (length row) = WIDTH ->
  exists runs total',
    encode_row WIDTH total row = Ok (runs, total') /\
    Forall (maximal_run (is_land row)) runs /\
    StronglySorted run_before runs /\
    Forall (fun run => run.1 + run.2 <= WIDTH) runs /\
    (forall c, is_land row c = true <->
               exists run, run ∈ runs /\ run.1 <= c < run.1 + run.2) /\
    (is_land row (WIDTH - 1) = true -> exists s, last runs = Some (s, WIDTH - s)) /\
    total' = total + run_cells runs.
Proof.
  intros HW. unfold encode_row, range. rewrite Z.sub_0_r, <- HW.
  destruct (encode_row_loop (Z.of_nat (length row)) total row (length row))
    as (st & -> & Hinv); [lia|]. simpl.
  pose proof (rle_close_spec (Z.of_nat (length row)) (is_land row) total
                (is_land_negative row) (is_land_beyond row) st ltac:(lia) Hinv) as Hclose.
  destruct (rle_close (Z.of_nat (length row)) st) as [runs total'].
  exists runs, total'. split; [reflexivity|exact Hclose].
Qed.

(** C1. For a row of [WIDTH] cells, the row loop of
    [save_grid_compact_json] raises nothing and emits the maximal land runs
    as [(start, length)] pairs, each ending before the next starts; a run
    never extends past column [WIDTH], and a run that reaches the last
    column is closed there; replaying the pairs into an all-zero row of the
    same width gives back exactly the land columns of the row (the row
    itself when its cells are 0 or 1); no pair is emitted exactly when the
    row is all sea; and the running total grows by the cells the runs
    cover. *)
Theorem row_encoder_round_trip (WIDTH total : Z) (row : list Z) :
  Z.of_nat (length row) = WIDTH ->
  exists runs total',
    encode_row WIDTH total row = Ok (runs, total') /\
    Forall (maximal_run (is_land row)) runs /\
    StronglySorted run_before runs /\
    Forall (fun run => run.1 + run.2 <= WIDTH) runs /\
    (is_land row (WIDTH - 1) = true -> exists s, last runs = Some (s, WIDTH - s)) /\
    replay WIDTH runs = land_mask row /\
    (Forall (fun v => v = 0 \/ v = 1) row -> replay WIDTH runs = row) /\
    (runs = [] <-> forall c, is_land row c = false) /\
    total' = total + run_cells runs.
Proof.
  intros HW.
  destruct (encode_row_runs WIDTH total row HW)
    as (runs & total' & Henc & Hmax & Hsorted & Hend & Hcover & Hlast & Htotal).
  exists runs, total'. subst WIDTH. repeat split; try done.
  - apply replay_spec, Hcover.
  - intros Hbool. rewrite <- (land_mask_boolean row Hbool) at 2.
    apply replay_spec, Hcover.
  - intros -> c. apply not_true_is_false. intros Hc.
    apply Hcover in Hc as (run & Hrun & _). inversion Hrun.
  - intros Hsea. destruct runs as [|run runs]; [reflexivity|exfalso].
    apply Forall_cons in Hmax as [(H1 & H2 & H3 & _) _].
    specialize (H3 run.1 ltac:(lia)). rewrite Hsea in H3. discriminate.
Qed.

Lemma row_encoder_round_trip_witness :
  exists runs total',
    encode_row 8 0 [0; 0; 1; 1; 1; 0; 0; 1] = Ok (runs, total') /\
    replay 8 runs = [0; 0; 1; 1; 1; 0; 0; 1] /\
    total' = run_cells runs.
Proof.
  destruct (row_encoder_round_trip 8 0 [0; 0; 1; 1; 1; 0; 0; 1] eq_refl)
    as (runs & total' & Henc & _ & _ & _ & _ & _ & Hbool & _ & Htotal).
  exists runs, total'. split; [exact Henc|]. split; [|lia].
  apply Hbool. repeat (constructor; [lia|]). constructor.
Defined.

(** The fourth scenario of the specification, row 1 of a 3 by 8 grid with
    land in columns 2 to 4: one run [(2, 3)]. *)
Lemma encode_row_scenario : encode_row 8 0 [0; 0; 1; 1; 1; 0; 0; 0] = Ok ([(2, 3)], 3).
Proof. vm_compute. reflexivity. Qed.

(** The whole of [save_grid_compact_json]: one list of runs per row, in
    row order, each with the guarantees above, and [totalLandCells] the
    number of cells all the runs cover. *)
Lemma save_grid_compact_json_spec (WIDTH : Z) (g : grid) :
  Forall (fun row => Z.of_nat (length row) = WIDTH) g ->
  exists rows total,
    save_grid_compact_json WIDTH g = Ok (rows, total) /\
    Forall2 (fun row runs =>
               Forall (maximal_run (is_land row)) runs /\
               StronglySorted run_before runs /\
               replay WIDTH runs = land_mask row) g rows /\
    total = foldr Z.add 0 (run_cells <$> rows).
Proof.
  intros Hrows. unfold save_grid_compact_json.
  assert (Hgen : forall acc t,
             exists rows,
               foldM (fun (acc : list (list (Z * Z)) * Z) (row : list Z) =>
                        let '(encoded_rows, total) := acc in
                        '(segs, total') ← encode_row WIDTH total row;
                        Ok (encoded_rows ++ [segs], total')) (acc, t) g
               = Ok (acc ++ rows, t + foldr Z.add 0 (run_cells <$> rows)) /\
               Forall2 (fun row runs =>
                          Forall (maximal_run (is_land row)) runs /\
                          StronglySorted run_before runs /\
                          replay WIDTH runs = land_mask row) g rows).
  { induction Hrows as [|row g Hrow _ IH]; intros acc t.
    - exists []. simpl. rewrite app_nil_r, Z.add_0_r. split; [reflexivity|constructor].
    - destruct (encode_row_runs WIDTH t row Hrow)
        as (runs & t' & Henc & Hmax & Hsorted & _ & Hcover & _ & Ht').
      assert (Hreplay : replay WIDTH runs = land_mask row)
        by (subst WIDTH; apply replay_spec, Hcover).
      destruct (IH (acc ++ [runs]) t') as (rows & Hfold & Hall).
      exists (runs :: rows). cbn [foldM]. rewrite Henc. cbn [mbind result_bind].
      rewrite Hfold. split.
      + rewrite <- app_assoc, fmap_cons. simpl. do 2 f_equal. lia.
      + constructor; done. }
  destruct (Hgen [] 0) as (rows & Hfold & Hall).
  exists rows, (foldr Z.add 0 (run_cells <$> rows)). rewrite Hfold. done.
Qed.

(** ** The row loop of the fast script *)

Lemma fast_encode_row_loop (RESOLUTION : float) (WIDTH total : Z)
    (contains : float -> float -> bool) (lat : float) (n : nat) :
  Z.of_nat n <= WIDTH ->
  (forall k, 0 <= k < WIDTH -> converts k = true) ->
  exists st,
    foldM (fun st col_idx =>
             c ← float_of_int col_idx;
             let lon := (-180 + (c + 0.5) * RESOLUTION)%float in
             Ok (rle_step st col_idx (contains lon lat)))
          (RleState [] false 0 total) (seqZ 0 (Z.of_nat n)) = Ok st /\
    rle_inv (fast_is_land RESOLUTION WIDTH contains lat) total (Z.of_nat n) st.
Proof.
  intros Hn Hconv. induction n as [|n IH].
  - exists (RleState [] false 0 total). split; [reflexivity|]. apply rle_inv_init.
  - destruct IH as (st & Hfold & Hinv); [lia|].
    rewrite seqZ_S, foldM_app, Hfold, Z.add_0_l.
    cbn [mbind result_bind foldM].
    pose proof (Hconv (Z.of_nat n) ltac:(lia)) as Hc. unfold converts in Hc.
    assert (Hland : fast_is_land RESOLUTION WIDTH contains lat (Z.of_nat n)
                    = match float_of_int (Z.of_nat n) with
                      | Ok x => contains (-180 + (x + 0.5) * RESOLUTION)%float lat
                      | Raise _ => false
                      end).
    { unfold fast_is_land.
      destruct (Z.leb_spec 0 (Z.of_nat n)); [|lia].
      destruct (Z.ltb_spec (Z.of_nat n) WIDTH); [|lia]. reflexivity. }
    destruct (float_of_int (Z.of_nat n)) as [c|]; [|discriminate].
    cbn [mbind result_bind]. rewrite <- Hland.
    eexists. split; [reflexivity|].
    replace (Z.of_nat (S n)) with (Z.of_nat n + 1) by lia.
    apply rle_inv_step; [|lia|exact Hinv].
    intros k Hk. unfold fast_is_land. destruct (Z.leb_spec 0 k); [lia|reflexivity].
Qed.

(** The run-length loop of [generate_land_grid] emits, for the row of
    index [row_idx], the maximal runs of the columns whose cell center the
    prepared geometry contains, with the same guarantees as the loop of
    [save_grid_compact_json]. *)
Lemma fast_row_encoder (RESOLUTION : float) (WIDTH total row_idx : Z)
    (contains : float -> float -> bool) :
  0 <= WIDTH ->
  (forall k, 0 <= k < WIDTH -> converts k = true) ->
  converts row_idx = true ->
  exists r runs total',
    float_of_int row_idx = Ok r /\
    fast_encode_row RESOLUTION WIDTH contains total row_idx = Ok (runs, total') /\
    let land := fast_is_land RESOLUTION WIDTH contains
                  (90 - (r + 0.5) * RESOLUTION)%float in
    Forall (maximal_run land) runs /\
    StronglySorted run_before runs /\
    Forall (fun run => run.1 + run.2 <= WIDTH) runs /\
    (forall c, land c = true <-> exists run, run ∈ runs /\ run.1 <= c < run.1 + run.2) /\
    (land (WIDTH - 1) = true -> exists s, last runs = Some (s, WIDTH - s)) /\
    total' = total + run_cells runs.
Proof.
  intros HW Hconv Hrow. unfold fast_encode_row, converts in *.
  destruct (float_of_int row_idx) as [r|]; [|discriminate].
  cbn [mbind result_bind]. unfold range. rewrite Z.sub_0_r.
  destruct (fast_encode_row_loop RESOLUTION WIDTH total contains
              (90 - (r + 0.5) * RESOLUTION)%float (Z.to_nat WIDTH))
    as (st & Hfold & Hinv); [lia|exact Hconv|].
  rewrite Z2Nat.id in Hfold, Hinv by lia.
  cbv zeta in Hfold |- *. rewrite Hfold. cbn [mbind result_bind].
  pose proof (rle_close_spec WIDTH
                (fast_is_land RESOLUTION WIDTH contains (90 - (r + 0.5) * RESOLUTION)%float)
                total) as Hclose.
  specialize (Hclose ltac:(intros k Hk; unfold fast_is_land;
                           destruct (Z.leb_spec 0 k); [lia|reflexivity])).
  specialize (Hclose ltac:(intros k Hk; unfold fast_is_land;
                           destruct (Z.ltb_spec k WIDTH); [lia|];
                           rewrite andb_false_r; reflexivity)).
  specialize (Hclose st HW Hinv).
  destruct (rle_close WIDTH st) as [runs total'].
  exists r, runs, total'. split; [reflexivity|]. split; [reflexivity|]. exact Hclose.
Qed.

Lemma fast_columns_convert : all_in_chunks converts 72 = true.
Proof. vm_compute. reflexivity. Qed.

(** With the constants of the fast script every row index and every column
    index converts, so the guarantees hold for each of its 3600 rows. *)
Lemma fast_script_row_encoder (contains : float -> float -> bool) (total row_idx : Z) :
  0 <= row_idx < Fast.HEIGHT ->
  exists runs total',
    fast_encode_row Fast.RESOLUTION Fast.WIDTH contains total row_idx = Ok (runs, total') /\
    StronglySorted run_before runs /\
    Forall (fun run => 0 <= run.1 /\ 0 < run.2 /\ run.1 + run.2 <= Fast.WIDTH) runs /\
    total' = total + run_cells runs.
Proof.
  intros Hrow.
  destruct (fast_row_encoder Fast.RESOLUTION Fast.WIDTH total row_idx contains)
    as (r & runs & total' & _ & Henc & Hmax & Hsorted & Hend & _ & _ & Htotal).
  - unfold Fast.WIDTH. lia.
  - intros k Hk. apply (all_in_chunks_spec _ _ _ fast_columns_convert).
    unfold Fast.WIDTH in Hk. lia.
  - apply (all_in_chunks_spec _ _ _ fast_columns_convert).
    unfold Fast.HEIGHT in Hrow. lia.
  - exists runs, total'. repeat split; try done.
    rewrite Forall_forall in *. intros run Hrun.
    destruct (Hmax run Hrun) as (? & ? & _). specialize (Hend run Hrun). simpl in Hend.
    lia.
Qed.
(** ** The bit packer of [save_grid_binary] *)

Section BitPacker.

Variable WIDTH : Z.

Lemma testbit_or_bits (b : Z -> bool) (bits : list Z) : forall byte i,
  0 <= i -> (forall bit, bit ∈ bits -> 0 <= bit <= 7) ->
  Z.testbit (fold_left (fun byte bit =>
                          if b bit then Z.lor byte (Z.shiftl 1 (7 - bit)) else byte)
                       bits byte) i
  = Z.testbit byte i || existsb (fun bit => b bit && (7 - bit =? i)) bits.
Proof.
  induction bits as [|bit bits IH]; intros byte i Hi Hbits; simpl.
  - rewrite orb_false_r. reflexivity.
  - rewrite IH; [|done|intros; apply Hbits; right; done].
    assert (0 <= bit <= 7) by (apply Hbits; left).
    destruct (b bit); simpl; [|reflexivity].
    rewrite Z.lor_spec, Z.shiftl_1_l, Z.pow2_bits_eqb by lia.
    rewrite orb_assoc. reflexivity.
Qed.

Lemma or_bits_range (b : Z -> bool) (bits : list Z) : forall byte,
  0 <= byte < 256 -> (forall bit, bit ∈ bits -> 0 <= bit <= 7) ->
  0 <= fold_left (fun byte bit =>
                    if b bit then Z.lor byte (Z.shiftl 1 (7 - bit)) else byte)
                 bits byte < 256.
Proof.
  induction bits as [|bit bits IH]; intros byte Hbyte Hbits; simpl; [done|].
  apply IH; [|intros; apply Hbits; right; done].
  assert (0 <= bit <= 7) by (apply Hbits; left).
  destruct (b bit); [|done].
  assert (Hnn : 0 <= Z.lor byte (Z.shiftl 1 (7 - bit))).
  { apply Z.lor_nonneg. split; [lia|]. apply Z.shiftl_nonneg. lia. }
  split; [exact Hnn|].
  destruct (Z.eq_dec (Z.lor byte (Z.shiftl 1 (7 - bit))) 0) as [->|Hne]; [lia|].
  change 256 with (2 ^ 8). apply Z.log2_lt_pow2; [lia|].
  rewrite Z.log2_lor; [|lia|apply Z.shiftl_nonneg; lia].
  rewrite Z.shiftl_1_l, Z.log2_pow2 by lia.
  destruct (Z.eq_dec byte 0) as [->|]; [simpl; lia|].
  assert (Z.log2 byte < 8) by (apply Z.log2_lt_pow2; lia). lia.
Qed.

Lemma seqZ_0_8 : seqZ 0 8 = [0; 1; 2; 3; 4; 5; 6; 7].
Proof. reflexivity. Qed.

Lemma chunk_byte_range (row : list Z) (col_start : Z) :
  0 <= chunk_byte WIDTH row col_start < 256.
Proof.
  unfold chunk_byte.
  apply (or_bits_range (fun bit => (col_start + bit <? WIDTH) && is_land row (col_start + bit)));
    [lia|]. intros bit Hbit. apply elem_of_seqZ in Hbit. lia.
Qed.

Lemma chunk_byte_testbit (row : list Z) (col_start bit : Z) :
  0 <= bit < 8 ->
  Z.testbit (chunk_byte WIDTH row col_start) (7 - bit)
  = (col_start + bit <? WIDTH) && is_land row (col_start + bit).
Proof.
  intros Hbit. unfold chunk_byte.
  rewrite (testbit_or_bits
             (fun bit => (col_start + bit <? WIDTH) && is_land row (col_start + bit)));
    [|lia|intros k Hk; apply elem_of_seqZ in Hk; lia].
  rewrite Z.bits_0, orb_false_l, seqZ_0_8.
  assert (Hcases : bit = 0 \/ bit = 1 \/ bit = 2 \/ bit = 3 \/
                   bit = 4 \/ bit = 5 \/ bit = 6 \/ bit = 7) by lia.
  destruct Hcases as [->|[->|[->|[->|[->|[->|[->| ->]]]]]]]; simpl;
    rewrite ?andb_false_r, ?andb_true_r, ?orb_false_r, ?orb_false_l; reflexivity.
Qed.

(** The loop over the eight bits computes [chunk_byte], and the byte
    passes the range check of [bytearray.append]. *)
Lemma pack_byte_loop (row : list Z) (col_start : Z) (bits : list Z) :
  Z.of_nat (length row) = WIDTH -> 0 <= col_start ->
  (forall bit, bit ∈ bits -> 0 <= bit) ->
  forall byte,
    foldM (fun byte bit =>
             let col := col_start + bit in
             if col <? WIDTH then
               v ← getitem row col;
               Ok (if v =? 1 then Z.lor byte (Z.shiftl 1 (7 - bit)) else byte)
             else Ok byte) byte bits
    = Ok (fold_left (fun byte bit =>
                       if (col_start + bit <? WIDTH) && is_land row (col_start + bit)
                       then Z.lor byte (Z.shiftl 1 (7 - bit)) else byte) bits byte).
Proof.
  intros Hlen Hstart. induction bits as [|bit bits IH]; intros Hbits byte; [reflexivity|].
  cbn [foldM fold_left].
  assert (0 <= bit) by (apply Hbits; left).
  destruct (Z.ltb_spec (col_start + bit) WIDTH) as [Hlt|Hge].
  - destruct (getitem_in_range row (col_start + bit)) as (v & Hv & ->); [lia|].
    cbn [mbind result_bind].
    replace (is_land row (col_start + bit)) with (v =? 1).
    + rewrite andb_true_l. apply IH. intros; apply Hbits; right; done.
    + symmetry. rewrite <- (Z2Nat.id (col_start + bit)) by lia.
      apply is_land_lookup. exact Hv.
  - cbn [mbind result_bind]. rewrite andb_false_l.
    apply IH. intros; apply Hbits; right; done.
Qed.

Lemma pack_byte_spec (row : list Z) (col_start : Z) :
  Z.of_nat (length row) = WIDTH -> 0 <= col_start ->
  pack_byte WIDTH row col_start = Ok (chunk_byte WIDTH row col_start).
Proof.
  intros Hlen Hstart. unfold pack_byte, range. change (8 - 0) with 8.
  rewrite pack_byte_loop; try done.
  - fold (chunk_byte WIDTH row col_start). cbn [mbind result_bind].
    pose proof (chunk_byte_range row col_start) as [H1 H2].
    destruct (Z.leb_spec 0 (chunk_byte WIDTH row col_start)); [|lia].
    destruct (Z.ltb_spec (chunk_byte WIDTH row col_start) 256); [|lia].
    reflexivity.
  - intros bit Hbit. apply elem_of_seqZ in Hbit. lia.
Qed.

Lemma pack_row_loop (row : list Z) (starts : list Z) :
  Z.of_nat (length row) = WIDTH ->
  (forall s, s ∈ starts -> 0 <= s) ->
  forall packed,
    foldM (fun packed col_start =>
             byte ← pack_byte WIDTH row col_start; Ok (packed ++ [byte]))
          packed starts
    = Ok (packed ++ (chunk_byte WIDTH row <$> starts)).
Proof.
  intros Hlen. induction starts as [|s starts IH]; intros Hs packed.
  - simpl. rewrite app_nil_r. reflexivity.
  - cbn [foldM]. rewrite pack_byte_spec; [|done|apply Hs; left].
    cbn [mbind result_bind]. rewrite IH by (intros; apply Hs; right; done).
    rewrite fmap_cons, <- app_assoc. reflexivity.
Qed.

Lemma pack_row_spec (packed row : list Z) :
  Z.of_nat (length row) = WIDTH ->
  pack_row WIDTH packed row = Ok (packed ++ row_bytes WIDTH row).
Proof.
  intros Hlen. unfold pack_row, range_step.
  rewrite pack_row_loop; [|done|].
  - unfold row_bytes, row_stride. rewrite <- list_fmap_compose.
    replace (WIDTH + 8 - 1) with (WIDTH + 7) by lia. reflexivity.
  - intros s Hs. apply list_elem_of_fmap in Hs as (k & -> & Hk).
    apply elem_of_seqZ in Hk. lia.
Qed.

Lemma save_grid_binary_loop (g : grid) :
  Forall (fun row => Z.of_nat (length row) = WIDTH) g ->
  forall packed,
    foldM (pack_row WIDTH) packed g = Ok (packed ++ concat (row_bytes WIDTH <$> g)).
Proof.
  induction 1 as [|row g Hrow _ IH]; intros packed.
  - simpl. rewrite app_nil_r. reflexivity.
  - cbn [foldM]. rewrite pack_row_spec by done. cbn [mbind result_bind].
    rewrite IH, fmap_cons. simpl. rewrite app_assoc. reflexivity.
Qed.

Lemma length_row_bytes (row : list Z) :
  length (row_bytes WIDTH row) = Z.to_nat (row_stride WIDTH).
Proof. unfold row_bytes. rewrite length_fmap, length_seqZ. reflexivity. Qed.

Lemma lookup_row_bytes (row : list Z) (k : Z) :
  0 <= k < row_stride WIDTH ->
  row_bytes WIDTH row !! Z.to_nat k = Some (chunk_byte WIDTH row (8 * k)).
Proof.
  intros Hk. unfold row_bytes. rewrite list_lookup_fmap, lookup_seqZ_lt by lia.
  simpl. do 2 f_equal. lia.
Qed.

Lemma lookup_concat_uniform {A : Type} (n : nat) (ls : list (list A)) :
  Forall (fun l => length l = n) ls ->
  forall (r k : nat), (k < n)%nat ->
    concat ls !! (r * n + k)%nat = (ls !! r) ≫= (fun l => l !! k).
Proof.
  induction 1 as [|l ls Hl _ IH]; intros r k Hk; [reflexivity|].
  destruct r as [|r]; simpl.
  - rewrite lookup_app_l by lia. reflexivity.
  - rewrite lookup_app_r by lia.
    replace (n + r * n + k - length l)%nat with (r * n + k)%nat by lia.
    apply IH. exact Hk.
Qed.

Lemma length_concat_uniform {A : Type} (n : nat) (ls : list (list A)) :
  Forall (fun l => length l = n) ls -> length (concat ls) = (length ls * n)%nat.
Proof.
  induction 1 as [|l ls Hl _ IH]; [reflexivity|].
  simpl. rewrite length_app, IH, Hl. reflexivity.
Qed.

Lemma row_stride_ceiling : 8 * (row_stride WIDTH - 1) < WIDTH <= 8 * row_stride WIDTH.
Proof.
  unfold row_stride.
  pose proof (Z.div_mod (WIDTH + 7) 8 ltac:(lia)).
  pose proof (Z.mod_pos_bound (WIDTH + 7) 8 ltac:(lia)). lia.
Qed.

(** Where the packed stream keeps the byte [k] of row [r]. *)
Lemma lookup_packed (g : grid) (r k : Z) (row : list Z) :
  0 <= r -> 0 <= k < row_stride WIDTH ->
  g !! Z.to_nat r = Some row ->
  concat (row_bytes WIDTH <$> g) !! Z.to_nat (r * row_stride WIDTH + k)
  = Some (chunk_byte WIDTH row (8 * k)).
Proof.
  intros Hr Hk Hrow.
  replace (Z.to_nat (r * row_stride WIDTH + k))
    with (Z.to_nat r * Z.to_nat (row_stride WIDTH) + Z.to_nat k)%nat by lia.
  rewrite (lookup_concat_uniform (Z.to_nat (row_stride WIDTH))); [| |lia].
  - rewrite list_lookup_fmap, Hrow. simpl. apply lookup_row_bytes. exact Hk.
  - apply Forall_fmap, Forall_true. intros l. apply length_row_bytes.
Qed.

End BitPacker.

Lemma unpack_row_bytes (WIDTH : Z) (g : grid) (r : nat) (row : list Z) :
  0 <= WIDTH -> Z.of_nat (length row) = WIDTH -> g !! r = Some row ->
  (fun c =>
     let byte := concat (row_bytes WIDTH <$> g)
                   !!! Z.to_nat (Z.of_nat r * row_stride WIDTH + c / 8) in
     if Z.testbit byte (7 - c mod 8) then 1 else 0) <$> seqZ 0 WIDTH
  = land_mask row.
Proof.
  intros HW Hlen Hrow. apply list_eq. intros j.
  unfold land_mask. rewrite !list_lookup_fmap.
  pose proof (row_stride_ceiling WIDTH) as Hceil.
  destruct (row !! j) as [v|] eqn:Hv.
  - assert (Hj : Z.of_nat j < WIDTH) by (apply lookup_lt_Some in Hv; lia).
    rewrite lookup_seqZ_lt by lia. simpl. f_equal.
    pose proof (Z.div_mod (Z.of_nat j) 8 ltac:(lia)) as Hdm.
    pose proof (Z.mod_pos_bound (Z.of_nat j) 8 ltac:(lia)) as Hmod.
    assert (Hk : 0 <= Z.of_nat j / 8 < row_stride WIDTH).
    { split; [apply Z.div_pos; lia|]. apply Z.div_lt_upper_bound; lia. }
    pose proof (lookup_packed WIDTH g (Z.of_nat r) (Z.of_nat j / 8) row
                  ltac:(lia) Hk ltac:(rewrite Nat2Z.id; exact Hrow)) as Hbyte.
    apply list_lookup_total_correct in Hbyte. rewrite Z.add_0_l, Hbyte.
    rewrite chunk_byte_testbit by lia.
    rewrite <- Hdm. destruct (Z.ltb_spec (Z.of_nat j) WIDTH); [|lia].
    rewrite andb_true_l, (is_land_lookup _ _ _ Hv). reflexivity.
  - rewrite lookup_seqZ_ge; [reflexivity|]. apply lookup_ge_None in Hv. lia.
Qed.

(** C2. For a grid of [HEIGHT] rows of [WIDTH] cells, [save_grid_binary]
    raises nothing and writes [HEIGHT * ceil(WIDTH / 8)] bytes, each in
    [0, 255]; the cell of row [r] and column [c] is bit [7 - c mod 8] of
    byte [c / 8] of the byte group of row [r], a group that starts at byte
    [r * ceil(WIDTH / 8)] and ends before the next row's, and the bit is set
    exactly when the cell is land; the bits of a final byte that stand for
    columns at or beyond [WIDTH] are clear; and reading the stream back with
    the same width and height gives the grid again, cell for cell. *)
Theorem bit_packer_round_trip (WIDTH HEIGHT : Z) (g : grid) :
  0 <= WIDTH -> Z.of_nat (length g) = HEIGHT ->
  Forall (fun row => Z.of_nat (length row) = WIDTH) g ->
  exists packed,
    save_grid_binary WIDTH g = Ok packed /\
    Z.of_nat (length packed) = HEIGHT * row_stride WIDTH /\
    8 * (row_stride WIDTH - 1) < WIDTH <= 8 * row_stride WIDTH /\
    Forall (fun byte => 0 <= byte < 256) packed /\
    (forall r c row,
        0 <= r -> 0 <= c < WIDTH -> g !! Z.to_nat r = Some row ->
        r * row_stride WIDTH <= r * row_stride WIDTH + c / 8
          < (r + 1) * row_stride WIDTH /\
        exists byte,
          packed !! Z.to_nat (r * row_stride WIDTH + c / 8) = Some byte /\
          Z.testbit byte (7 - c mod 8) = is_land row c) /\
    (forall r k bit byte,
        0 <= r -> 0 <= k < row_stride WIDTH -> 0 <= bit < 8 ->
        WIDTH <= 8 * k + bit ->
        packed !! Z.to_nat (r * row_stride WIDTH + k) = Some byte ->
        Z.testbit byte (7 - bit) = false) /\
    unpack WIDTH HEIGHT packed = Some (land_mask <$> g) /\
    (Forall (Forall (fun v => v = 0 \/ v = 1)) g ->
     unpack WIDTH HEIGHT packed = Some g).
Proof.
  intros HW HH Hrows.
  pose proof (row_stride_ceiling WIDTH) as Hceil.
  assert (Hstride : 0 <= row_stride WIDTH) by lia.
  assert (Hlen : Z.of_nat (length (concat (row_bytes WIDTH <$> g)))
                 = HEIGHT * row_stride WIDTH).
  { rewrite (length_concat_uniform (Z.to_nat (row_stride WIDTH))).
    - rewrite length_fmap. lia.
    - apply Forall_fmap, Forall_true. intros l. apply length_row_bytes. }
  assert (Hunpack : unpack WIDTH HEIGHT (concat (row_bytes WIDTH <$> g))
                    = Some (land_mask <$> g)).
  { unfold unpack. rewrite Hlen, Z.eqb_refl. f_equal.
    apply list_eq. intros i. rewrite !list_lookup_fmap.
    destruct (g !! i) as [row|] eqn:Hrow.
    - rewrite lookup_seqZ_lt by (apply lookup_lt_Some in Hrow; lia).
      simpl. f_equal. apply unpack_row_bytes; try done.
      rewrite Forall_forall in Hrows. apply Hrows.
      apply list_elem_of_lookup. exists i. exact Hrow.
    - rewrite lookup_seqZ_ge; [reflexivity|]. apply lookup_ge_None in Hrow. lia. }
  exists (concat (row_bytes WIDTH <$> g)).
  split; [|split; [|split; [|split; [|split; [|split; [|split]]]]]].
  - unfold save_grid_binary. rewrite (save_grid_binary_loop WIDTH g Hrows). reflexivity.
  - exact Hlen.
  - exact Hceil.
  - apply Forall_concat, Forall_fmap, Forall_true. intros row.
    apply Forall_fmap, Forall_true. intros k. apply chunk_byte_range.
  - intros r c row Hr Hc Hrow.
    pose proof (Z.div_mod c 8 ltac:(lia)) as Hdm.
    pose proof (Z.mod_pos_bound c 8 ltac:(lia)) as Hmod.
    assert (Hk : 0 <= c / 8 < row_stride WIDTH).
    { split; [apply Z.div_pos; lia|]. apply Z.div_lt_upper_bound; lia. }
    split; [lia|].
    exists (chunk_byte WIDTH row (8 * (c / 8))). split.
    + apply lookup_packed; done.
    + rewrite chunk_byte_testbit by lia. rewrite <- Hdm.
      destruct (Z.ltb_spec c WIDTH); [|lia]. apply andb_true_l.
  - intros r k bit byte Hr Hk Hbit Hpad Hbyte.
    assert (Hrow : is_Some (g !! Z.to_nat r)).
    { apply lookup_lt_is_Some. apply lookup_lt_Some in Hbyte. nia. }
    destruct Hrow as [row Hrow].
    rewrite (lookup_packed WIDTH g r k row) in Hbyte by done.
    injection Hbyte as <-. rewrite chunk_byte_testbit by lia.
    destruct (Z.ltb_spec (8 * k + bit) WIDTH); [lia|]. reflexivity.
  - exact Hunpack.
  - intros Hbool. rewrite Hunpack. f_equal.
    clear -Hbool. induction Hbool as [|row g' Hrow _ IH]; [reflexivity|].
    rewrite fmap_cons, IH, (land_mask_boolean row Hrow). reflexivity.
Qed.

Lemma bit_packer_round_trip_witness :
  let g := [[0; 0; 0; 0; 0; 0; 0; 0]; [0; 0; 1; 1; 1; 0; 0; 0]; [1; 0; 0; 0; 0; 0; 0; 1]] in
  exists packed,
    save_grid_binary 8 g = Ok packed /\ unpack 8 3 packed = Some g.
Proof.
  intros g.
  destruct (bit_packer_round_trip 8 3 g) as (packed & Hsave & _ & _ & _ & _ & _ & _ & Hbool).
  - lia.
  - reflexivity.
  - repeat constructor.
  - exists packed. split; [exact Hsave|]. apply Hbool.
    repeat (constructor; [repeat (constructor; [lia|]); constructor|]). constructor.
Defined.

(** The fourth scenario of the specification: the byte of row 1 is
    [0b00111000]. *)
Lemma save_grid_binary_scenario :
  save_grid_binary 8 [[0; 0; 0; 0; 0; 0; 0; 0]; [0; 0; 1; 1; 1; 0; 0; 0]; [0; 0; 0; 0; 0; 0; 0; 0]]
  = Ok [0; 56; 0].
Proof. vm_compute. reflexivity. Qed.

(** A width that is not a multiple of eight: each row still takes whole
    bytes, and the unused low bits of its last byte stay clear. *)
Lemma save_grid_binary_padding :
  save_grid_binary 10 [[1; 1; 1; 1; 1; 1; 1; 1; 1; 1]; [0; 0; 0; 0; 0; 0; 0; 0; 0; 1]]
  = Ok [255; 192; 0; 64].
Proof. vm_compute. reflexivity. Qed.
(** ** Grid writes *)

Lemma elem_of_concat {A : Type} (x : A) (ls : list (list A)) :
  x ∈ concat ls <-> exists l, l ∈ ls /\ x ∈ l.
Proof.
  induction ls as [|l ls IH]; simpl.
  - split; [intros H; inversion H | intros (l & H & _); inversion H].
  - rewrite elem_of_app, IH. split.
    + intros [H|(l' & H1 & H2)]; [exists l; split; [left|done] |
                                  exists l'; split; [right; done|done]].
    + intros (l' & H1 & H2). apply elem_of_cons in H1 as [->|H1]; [left; done|].
      right. exists l'. done.
Qed.

Section Painting.

Variables HEIGHT WIDTH : Z.

Lemma grid_shape_paint_cell (g : grid) (rc : Z * Z) :
  grid_shape HEIGHT WIDTH g -> grid_shape HEIGHT WIDTH (paint_cell g rc).
Proof.
  intros [Hlen Hrows]. unfold paint_cell.
  destruct ((0 <=? rc.1) && (0 <=? rc.2)); [|split; done]. split.
  - rewrite length_alter. exact Hlen.
  - apply Forall_alter; [exact Hrows|]. intros row _ Hrow.
    rewrite length_insert. exact Hrow.
Qed.

Lemma grid_shape_paint (ws : list (Z * Z)) : forall g,
  grid_shape HEIGHT WIDTH g -> grid_shape HEIGHT WIDTH (paint g ws).
Proof.
  induction ws as [|rc ws IH]; intros g Hg; [exact Hg|].
  apply IH, grid_shape_paint_cell, Hg.
Qed.

Lemma cell_paint_cell (g : grid) (rc : Z * Z) (r c : nat) :
  grid_shape HEIGHT WIDTH g -> in_grid HEIGHT WIDTH rc ->
  cell (paint_cell g rc) r c =
  if decide ((Z.of_nat r, Z.of_nat c) = rc) then Some 1 else cell g r c.
Proof.
  intros [Hlen Hrows] [Hr Hc]. destruct rc as [r0 c0]. simpl in Hr, Hc.
  unfold cell, paint_cell. simpl.
  destruct (Z.leb_spec 0 r0) as [_|?]; [|lia].
  destruct (Z.leb_spec 0 c0) as [_|?]; [|lia]. simpl.
  rewrite list_lookup_alter.
  destruct (decide (Z.to_nat r0 = r)) as [<-|Hne].
  - destruct (lookup_lt_is_Some_2 g (Z.to_nat r0)) as [row Hrow]; [lia|].
    rewrite Hrow. simpl.
    assert (Z.of_nat (length row) = WIDTH).
    { rewrite Forall_forall in Hrows. apply Hrows.
      apply list_elem_of_lookup. eexists. exact Hrow. }
    rewrite list_lookup_insert.
    destruct (decide (Z.to_nat c0 = c ∧ (Z.to_nat c0 < length row)%nat)) as [[<- _]|Hn].
    + rewrite decide_True; [reflexivity|]. f_equal; lia.
    + rewrite decide_False; [reflexivity|]. intros [= H1 H2]. apply Hn. lia.
  - rewrite decide_False; [reflexivity|]. intros [= H1 H2]. apply Hne. lia.
Qed.

(** A cell of the painted grid is land if its position is among the
    writes and is what it was otherwise. *)
Lemma cell_paint (ws : list (Z * Z)) : forall (g : grid) (r c : nat),
  grid_shape HEIGHT WIDTH g -> Forall (in_grid HEIGHT WIDTH) ws ->
  cell (paint g ws) r c =
  if decide ((Z.of_nat r, Z.of_nat c) ∈ ws) then Some 1 else cell g r c.
Proof.
  induction ws as [|rc ws IH]; intros g r c Hg Hws.
  - rewrite decide_False; [reflexivity|]. intros H. inversion H.
  - apply Forall_cons in Hws as [Hrc Hws]. simpl.
    rewrite IH; [|apply grid_shape_paint_cell, Hg|exact Hws].
    rewrite cell_paint_cell by done.
    destruct (decide ((Z.of_nat r, Z.of_nat c) ∈ ws)) as [Hin|Hnin].
    + rewrite decide_True; [reflexivity|]. right. exact Hin.
    + destruct (decide ((Z.of_nat r, Z.of_nat c) = rc)) as [<-|Hne].
      * rewrite decide_True; [reflexivity|]. left.
      * rewrite decide_False; [reflexivity|].
        intros H. apply elem_of_cons in H as [?|?]; done.
Qed.

Lemma grid_ext (g1 g2 : grid) :
  grid_shape HEIGHT WIDTH g1 -> grid_shape HEIGHT WIDTH g2 ->
  (forall r c, cell g1 r c = cell g2 r c) -> g1 = g2.
Proof.
  intros [Hl1 Hr1] [Hl2 Hr2] Hcells. apply list_eq. intros r.
  destruct (g1 !! r) as [row1|] eqn:H1.
  - destruct (lookup_lt_is_Some_2 g2 r) as [row2 H2];
      [apply lookup_lt_Some in H1; lia|].
    rewrite H2. f_equal. apply list_eq. intros c.
    specialize (Hcells r c). unfold cell in Hcells.
    rewrite H1, H2 in Hcells. exact Hcells.
  - symmetry. apply lookup_ge_None. apply lookup_ge_None in H1. lia.
Qed.

(** Painting depends on the set of positions only, not on their order or
    multiplicity. *)
Lemma paint_ext (g : grid) (ws1 ws2 : list (Z * Z)) :
  grid_shape HEIGHT WIDTH g ->
  Forall (in_grid HEIGHT WIDTH) ws1 -> Forall (in_grid HEIGHT WIDTH) ws2 ->
  (forall rc, rc ∈ ws1 <-> rc ∈ ws2) ->
  paint g ws1 = paint g ws2.
Proof.
  intros Hg H1 H2 Hsame. apply grid_ext; try (apply grid_shape_paint, Hg).
  intros r c. rewrite !cell_paint by done.
  destruct (decide ((Z.of_nat r, Z.of_nat c) ∈ ws1)) as [Hin|Hnin].
  - rewrite decide_True; [reflexivity|]. apply Hsame, Hin.
  - rewrite decide_False; [reflexivity|]. intros H. apply Hnin, Hsame, H.
Qed.

Lemma paint_app (g : grid) (ws1 ws2 : list (Z * Z)) :
  paint g (ws1 ++ ws2) = paint (paint g ws1) ws2.
Proof. apply fold_left_app. Qed.

Lemma after_writes_nil (s : store) : after_writes s [] = s.
Proof. destruct s. unfold after_writes. simpl. rewrite app_nil_r. reflexivity. Qed.

Lemma after_writes_app (s : store) (ws1 ws2 : list (Z * Z)) :
  after_writes (after_writes s ws1) ws2 = after_writes s (ws1 ++ ws2).
Proof.
  unfold after_writes. simpl. rewrite paint_app, app_assoc. reflexivity.
Qed.

(** ** Computations that only write in-range cells *)

Local Abbreviation performs := (performs HEIGHT WIDTH).
Local Abbreviation writer := (writer HEIGHT WIDTH).

Lemma performs_ret {A : Type} (a : A) : performs (mret a) (Ok a) [].
Proof.
  split; [constructor|]. intros s _. rewrite after_writes_nil. reflexivity.
Qed.

Lemma performs_pure {A : Type} (r : result A) : performs (pure r) r [].
Proof.
  split; [constructor|]. intros s _. rewrite after_writes_nil.
  unfold pure. destruct r; reflexivity.
Qed.

Lemma performs_bind {A B : Type} (m : M A) (f : A -> M B) a ws1 res ws2 :
  performs m (Ok a) ws1 -> performs (f a) res ws2 ->
  performs (m ≫= f) res (ws1 ++ ws2).
Proof.
  intros [Hw1 Hm] [Hw2 Hf]. split; [apply Forall_app; done|].
  intros s Hs. unfold mbind, M_bind. rewrite (Hm s Hs).
  rewrite Hf by (apply grid_shape_paint, Hs).
  rewrite after_writes_app. reflexivity.
Qed.

Lemma performs_bind_raise {A B : Type} (m : M A) (f : A -> M B) e ws :
  performs m (Raise e) ws -> performs (m ≫= f) (Raise e) ws.
Proof.
  intros [Hw Hm]. split; [exact Hw|].
  intros s Hs. unfold mbind, M_bind. rewrite (Hm s Hs). reflexivity.
Qed.

Lemma performs_setitem2 (r c : Z) :
  in_grid HEIGHT WIDTH (r, c) -> performs (setitem2 r c) (Ok tt) [(r, c)].
Proof.
  intros Hrc. split; [constructor; [exact Hrc|constructor]|].
  destruct Hrc as [Hr Hc]. simpl in Hr, Hc.
  intros [g j] [Hlen Hrows]. simpl in Hlen, Hrows. unfold setitem2. simpl.
  rewrite index_in_range by lia.
  destruct (lookup_lt_is_Some_2 g (Z.to_nat r)) as [row Hrow]; [lia|].
  rewrite Hrow.
  assert (Z.of_nat (length row) = WIDTH).
  { rewrite Forall_forall in Hrows. apply Hrows.
    apply list_elem_of_lookup. eexists. exact Hrow. }
  rewrite index_in_range by lia.
  unfold after_writes, paint, paint_cell. simpl.
  destruct (Z.leb_spec 0 r) as [_|?]; [|lia].
  destruct (Z.leb_spec 0 c) as [_|?]; [|lia]. simpl.
  do 2 f_equal.
  rewrite list_insert_alter. apply list_alter_ext; [|reflexivity].
  intros row' Hrow'. congruence.
Qed.

Lemma writer_ret {A : Type} (a : A) : writer (mret a).
Proof. eexists _, _. apply performs_ret. Qed.

Lemma writer_setitem2 (r c : Z) : in_grid HEIGHT WIDTH (r, c) -> writer (setitem2 r c).
Proof. intros H. eexists _, _. apply performs_setitem2, H. Qed.

Lemma writer_bind {A B : Type} (m : M A) (f : A -> M B) :
  writer m -> (forall a, writer (f a)) -> writer (m ≫= f).
Proof.
  intros ([a|e] & ws1 & Hm) Hf.
  - destruct (Hf a) as (res & ws2 & Hfa).
    eexists _, _. eapply performs_bind; done.
  - eexists _, _. apply performs_bind_raise. exact Hm.
Qed.

(** A pure step whose value the continuation needs in range. *)
Lemma writer_bind_pure {A B : Type} (r : result A) (f : A -> M B) :
  (forall a, r = Ok a -> writer (f a)) -> writer (pure r ≫= f).
Proof.
  intros Hf. destruct r as [a|e].
  - destruct (Hf a eq_refl) as (res & ws & Hfa).
    exists res, ([] ++ ws). eapply performs_bind; [apply performs_pure|exact Hfa].
  - eexists _, _. apply performs_bind_raise, performs_pure.
Qed.

Lemma writer_for_each {A : Type} (l : list A) (body : A -> M unit) :
  (forall x, x ∈ l -> writer (body x)) -> writer (for_each l body).
Proof.
  induction l as [|x l IH]; intros Hbody; simpl.
  - apply writer_ret.
  - apply writer_bind; [apply Hbody; left|].
    intros _. apply IH. intros y Hy. apply Hbody. right. exact Hy.
Qed.

End Painting.

Section Footprint.

Variable RESOLUTION : float.
Variables HEIGHT WIDTH : Z.
Hypothesis HEIGHT_pos : 0 < HEIGHT.
Hypothesis WIDTH_pos : 0 < WIDTH.

Local Abbreviation performs := (performs HEIGHT WIDTH).
Local Abbreviation writer := (writer HEIGHT WIDTH).
Local Abbreviation follows := (follows HEIGHT WIDTH).
Local Abbreviation neighbour_writes := (neighbour_writes HEIGHT WIDTH).
Local Abbreviation stamp_writes := (stamp_writes HEIGHT WIDTH).
Local Abbreviation footprint := (footprint RESOLUTION HEIGHT WIDTH).
Local Abbreviation processed := (processed RESOLUTION HEIGHT WIDTH).

Lemma performs_for_each_ok {A : Type} (l : list A) (body : A -> M unit)
    (w : A -> list (Z * Z)) :
  (forall x, x ∈ l -> performs (body x) (Ok tt) (w x)) ->
  performs (for_each l body) (Ok tt) (concat (w <$> l)).
Proof.
  induction l as [|x l IH]; intros Hbody; simpl.
  - apply performs_ret.
  - eapply performs_bind; [apply Hbody; left|].
    apply IH. intros y Hy. apply Hbody. right. exact Hy.
Qed.

(** A loop whose passes follow a pure description [S]: a pass for which
    [S] gives [y] writes [w y] and goes on, a pass for which [S] raises
    stops the loop with that exception. *)
Lemma performs_for_each_spec {A B : Type} (S : A -> result B)
    (w : B -> list (Z * Z)) (body : A -> M unit) (l : list A) :
  (forall x, x ∈ l ->
             match S x with
             | Ok y => performs (body x) (Ok tt) (w y)
             | Raise e => exists ws, performs (body x) (Raise e) ws
             end) ->
  match mapM S l with
  | Ok ys => performs (for_each l body) (Ok tt) (concat (w <$> ys))
  | Raise e => exists ws, performs (for_each l body) (Raise e) ws
  end.
Proof.
  induction l as [|x l IH]; intros Hbody; simpl.
  - apply performs_ret.
  - pose proof (Hbody x ltac:(left)) as Hx.
    destruct (S x) as [y|e]; simpl.
    + specialize (IH ltac:(intros z Hz; apply Hbody; right; exact Hz)).
      destruct (mapM S l) as [ys|e]; simpl.
      * eapply performs_bind; [exact Hx|exact IH].
      * destruct IH as [ws IH]. eexists. eapply performs_bind; [exact Hx|exact IH].
    + destruct Hx as [ws Hx]. exists ws. apply performs_bind_raise. exact Hx.
Qed.

Lemma lat_lon_to_grid_in_grid (lat lon : float) (row col : Z) :
  lat_lon_to_grid RESOLUTION HEIGHT WIDTH lat lon = Ok (row, col) ->
  in_grid HEIGHT WIDTH (row, col).
Proof.
  unfold lat_lon_to_grid.
  destruct (truediv (90 - lat) RESOLUTION) as [q|]; simpl; [|discriminate].
  destruct (int_of_float q) as [r|]; simpl; [|discriminate].
  destruct (truediv (lon + 180) RESOLUTION) as [q'|]; simpl; [|discriminate].
  destruct (int_of_float q') as [c|]; simpl; [|discriminate].
  intros [= <- <-]. unfold in_grid. simpl. lia.
Qed.

Lemma guard_in_grid (r c : Z) :
  (0 <=? r) && (r <? HEIGHT) && (0 <=? c) && (c <? WIDTH) = true <->
  in_grid HEIGHT WIDTH (r, c).
Proof.
  unfold in_grid. simpl.
  rewrite !andb_true_iff, !Z.leb_le, !Z.ltb_lt. lia.
Qed.

Lemma performs_mark_neighbours (row col : Z) :
  performs (mark_neighbours HEIGHT WIDTH row col) (Ok tt) (neighbour_writes row col).
Proof.
  unfold mark_neighbours, neighbour_writes.
  apply performs_for_each_ok. intros dr _.
  apply performs_for_each_ok. intros dc _.
  destruct ((0 <=? row + dr) && (row + dr <? HEIGHT) &&
            (0 <=? col + dc) && (col + dc <? WIDTH)) eqn:Hguard.
  - apply performs_setitem2, guard_in_grid, Hguard.
  - apply performs_ret.
Qed.

Lemma elem_of_neighbour_writes (row col : Z) (p : Z * Z) :
  p ∈ neighbour_writes row col <-> in_grid HEIGHT WIDTH p /\ near (row, col) p.
Proof.
  unfold neighbour_writes, near. cbn [fst snd]. rewrite elem_of_concat. split.
  - intros (l & Hl & Hp). apply list_elem_of_fmap in Hl as (dr & -> & Hdr).
    apply elem_of_concat in Hp as (l & Hl & Hp).
    apply list_elem_of_fmap in Hl as (dc & -> & Hdc).
    apply elem_of_range in Hdr, Hdc.
    destruct ((0 <=? row + dr) && (row + dr <? HEIGHT) &&
              (0 <=? col + dc) && (col + dc <? WIDTH)) eqn:Hguard; [|inversion Hp].
    apply list_elem_of_singleton in Hp as ->.
    apply guard_in_grid in Hguard. simpl. split; [exact Hguard|lia].
  - intros [Hin Hnear]. destruct p as [r c]. simpl in Hnear.
    exists (concat ((fun dc =>
                       if (0 <=? row + (r - row)) && (row + (r - row) <? HEIGHT) &&
                          (0 <=? col + dc) && (col + dc <? WIDTH)
                       then [(row + (r - row), col + dc)] else [])
                      <$> range (-1) 2)).
    split.
    + apply list_elem_of_fmap. exists (r - row). split; [reflexivity|].
      apply elem_of_range. lia.
    + apply elem_of_concat.
      exists [(row + (r - row), col + (c - col))]. split.
      * apply list_elem_of_fmap. exists (c - col). split.
        -- replace (row + (r - row)) with r by lia.
           replace (col + (c - col)) with c by lia.
           apply guard_in_grid in Hin. rewrite Hin. reflexivity.
        -- apply elem_of_range. lia.
      * replace (row + (r - row)) with r by lia.
        replace (col + (c - col)) with c by lia.
        apply list_elem_of_singleton. reflexivity.
Qed.

Lemma elem_of_stamp_writes (rc p : Z * Z) :
  in_grid HEIGHT WIDTH rc ->
  p ∈ stamp_writes rc <-> in_grid HEIGHT WIDTH p /\ near rc p.
Proof.
  intros Hrc. unfold stamp_writes. rewrite elem_of_cons.
  destruct rc as [row col]. simpl. rewrite elem_of_neighbour_writes.
  split; [|right; done].
  intros [->|H]; [|exact H]. split; [exact Hrc|]. unfold near. simpl. lia.
Qed.

Lemma performs_mark_around (lat lon : float) :
  match lat_lon_to_grid RESOLUTION HEIGHT WIDTH lat lon with
  | Ok rc => performs (mark_around RESOLUTION HEIGHT WIDTH lat lon) (Ok tt) (stamp_writes rc)
  | Raise e => performs (mark_around RESOLUTION HEIGHT WIDTH lat lon) (Raise e) []
  end.
Proof.
  unfold mark_around.
  destruct (lat_lon_to_grid RESOLUTION HEIGHT WIDTH lat lon) as [[row col]|e] eqn:Hcell.
  - change (stamp_writes (row, col))
      with ([] ++ ([(row, col)] ++ neighbour_writes row col)).
    eapply performs_bind; [apply performs_pure|].
    apply (performs_bind HEIGHT WIDTH (setitem2 row col)
             (fun _ => mark_neighbours HEIGHT WIDTH row col) tt [(row, col)]).
    + apply performs_setitem2, (lat_lon_to_grid_in_grid _ _ _ _ Hcell).
    + apply performs_mark_neighbours.
  - apply performs_bind_raise, performs_pure.
Qed.

Lemma follows_writer {B : Type} (m : M unit) (r : result B) w :
  follows m r w -> writer m.
Proof.
  unfold follows. destruct r as [y|e].
  - intros H. eexists _, _. exact H.
  - intros [ws H]. eexists _, _. exact H.
Qed.

Lemma follows_bind_pure {A B : Type} (r1 : result A) (f : A -> M unit)
    (g : A -> result B) (w : B -> list (Z * Z)) :
  (forall a, r1 = Ok a -> follows (f a) (g a) w) ->
  follows (pure r1 ≫= f) (r1 ≫= g) w.
Proof.
  intros Hf. destruct r1 as [a|e]; simpl.
  - specialize (Hf a eq_refl). unfold follows in *.
    destruct (g a) as [y|e].
    + destruct Hf as [Hw Hm]. split; [exact Hw|exact Hm].
    + destruct Hf as (ws & Hw & Hm). exists ws. split; [exact Hw|exact Hm].
  - exists []. apply performs_bind_raise, performs_pure.
Qed.

Lemma follows_for_each {A B : Type} (S : A -> result B)
    (w : B -> list (Z * Z)) (body : A -> M unit) (l : list A) :
  (forall x, x ∈ l -> follows (body x) (S x) w) ->
  follows (for_each l body) (mapM S l) (fun ys => concat (w <$> ys)).
Proof. exact (performs_for_each_spec S w body l). Qed.

Lemma follows_mark_around (lat lon : float) :
  follows (mark_around RESOLUTION HEIGHT WIDTH lat lon)
          (lat_lon_to_grid RESOLUTION HEIGHT WIDTH lat lon) stamp_writes.
Proof.
  pose proof (performs_mark_around lat lon) as H. unfold follows.
  destruct (lat_lon_to_grid RESOLUTION HEIGHT WIDTH lat lon); [exact H|].
  exists []. exact H.
Qed.

Lemma follows_mark_segment (coords : list position) (i : Z) :
  follows (mark_segment RESOLUTION HEIGHT WIDTH coords i)
          (segment_samples RESOLUTION HEIGHT WIDTH coords i)
          (fun cs => concat (stamp_writes <$> cs)).
Proof.
  unfold mark_segment, segment_samples.
  apply follows_bind_pure. intros [lon1 lat1] _.
  apply follows_bind_pure. intros [lon2 lat2] _.
  apply follows_bind_pure. intros steps _.
  apply follows_for_each. intros k _. unfold sample_cell.
  apply follows_bind_pure. intros [lat lon] _.
  apply follows_mark_around.
Qed.

Lemma follows_mark_line (coords : list position) :
  follows (for_each (range 0 (Z.of_nat (length coords) - 1))
                    (mark_segment RESOLUTION HEIGHT WIDTH coords))
          (mapM (segment_samples RESOLUTION HEIGHT WIDTH coords)
                (range 0 (Z.of_nat (length coords) - 1)))
          (fun css => concat ((fun cs => concat (stamp_writes <$> cs)) <$> css)).
Proof. apply follows_for_each. intros i _. apply follows_mark_segment. Qed.

Lemma writer_mark_around (lat lon : float) :
  writer (mark_around RESOLUTION HEIGHT WIDTH lat lon).
Proof. eapply follows_writer, follows_mark_around. Qed.

(** Every branch of [mark_polygon_on_grid] only ever assigns to cells
    inside the grid. *)
Lemma writer_mark_polygon_on_grid (p : polygon_data) :
  writer (mark_polygon_on_grid RESOLUTION HEIGHT WIDTH p).
Proof.
  unfold mark_polygon_on_grid.
  destruct (bbox p) as [[[min_lon min_lat] max_lon] max_lat].
  destruct (is_point p); [|destruct (is_line p)].
  - apply writer_bind_pure. intros [lon lat] _. apply writer_mark_around.
  - eapply follows_writer, follows_mark_line.
  - apply writer_bind_pure. intros [start_row ?] _.
    apply writer_bind_pure. intros [end_row ?] _.
    apply writer_bind_pure. intros [? start_col] _.
    apply writer_bind_pure. intros [? end_col] _.
    apply writer_for_each. intros row Hrow. apply elem_of_range in Hrow.
    apply writer_for_each. intros col Hcol. apply elem_of_range in Hcol.
    apply writer_bind_pure. intros [lat lon] _.
    apply writer_bind_pure. intros inside _.
    destruct inside; [|apply writer_ret].
    apply writer_setitem2. unfold in_grid. simpl. lia.
Qed.

(** ** The builder *)

Lemma grid_shape_empty : grid_shape HEIGHT WIDTH (empty_grid HEIGHT WIDTH).
Proof.
  unfold grid_shape, empty_grid. split.
  - rewrite length_replicate. lia.
  - apply Forall_replicate. rewrite length_replicate. lia.
Qed.

Lemma mark_polygon_on_grid_footprint (p : polygon_data) :
  Forall (in_grid HEIGHT WIDTH) (footprint p) /\
  forall s, grid_shape HEIGHT WIDTH (cells s) ->
    final_store (mark_polygon_on_grid RESOLUTION HEIGHT WIDTH p s)
      = after_writes s (footprint p) /\
    finished (mark_polygon_on_grid RESOLUTION HEIGHT WIDTH p s)
      = if processed p then Some (paint (cells s) (footprint p)) else None.
Proof.
  destruct (writer_mark_polygon_on_grid p) as (res & ws & Hw & Hm).
  assert (Hfp : footprint p = ws /\
                processed p = match res with Ok _ => true | Raise _ => false end).
  { unfold footprint, processed.
    rewrite (Hm (Store (empty_grid HEIGHT WIDTH) []) grid_shape_empty).
    destruct res; simpl; done. }
  destruct Hfp as [-> ->]. split; [exact Hw|].
  intros s Hs. rewrite (Hm s Hs). destruct res; simpl; done.
Qed.

Lemma for_each_finished (l : list polygon_data) : forall s,
  grid_shape HEIGHT WIDTH (cells s) ->
  finished (for_each l (mark_polygon_on_grid RESOLUTION HEIGHT WIDTH) s)
  = if forallb processed l
    then Some (paint (cells s) (concat (footprint <$> l)))
    else None.
Proof.
  induction l as [|p l IH]; intros s Hs; [reflexivity|].
  destruct (mark_polygon_on_grid_footprint p) as [Hw Hp].
  destruct (Hp s Hs) as [Hstore Hfin].
  cbn [for_each forallb fmap list_fmap concat]. unfold mbind, M_bind.
  destruct (mark_polygon_on_grid RESOLUTION HEIGHT WIDTH p s) as [[] s'|e s'];
    simpl in Hstore, Hfin; destruct (processed p); try discriminate; simpl.
  - subst s'. rewrite IH by (apply grid_shape_paint, Hs). simpl.
    destruct (forallb processed l); [|reflexivity].
    rewrite paint_app. reflexivity.
  - reflexivity.
Qed.

End Footprint.

(** ** Dilation writes *)

(** C10. Whatever the entry (a point, a line or a polygon) and whatever
    its coordinates, every [grid[r][c] = 1] that [mark_polygon_on_grid]
    executes on a [HEIGHT] by [WIDTH] grid has [0 <= r < HEIGHT] and
    [0 <= c < WIDTH] as written: the center index comes clamped out of
    [lat_lon_to_grid] and each neighbour index passes the guard first. So no
    assignment raises [IndexError], none reaches a cell through a negative
    index, and the grid afterwards is the grid before with exactly those
    cells set to 1; this holds up to the point where an exception, if any,
    stops the call. *)
Theorem dilation_writes_stay_in_range (RESOLUTION : float) (HEIGHT WIDTH : Z)
    (p : polygon_data) (s : store) :
  0 < HEIGHT -> 0 < WIDTH -> grid_shape HEIGHT WIDTH (cells s) ->
  let s' := final_store (mark_polygon_on_grid RESOLUTION HEIGHT WIDTH p s) in
  exists ws,
    journal s' = journal s ++ ws /\
    Forall (in_grid HEIGHT WIDTH) ws /\
    cells s' = paint (cells s) ws.
Proof.
  intros HH HW Hs.
  destruct (mark_polygon_on_grid_footprint RESOLUTION HEIGHT WIDTH HH HW p)
    as [Hws Hp].
  destruct (Hp s Hs) as [Hstore _].
  exists (footprint RESOLUTION HEIGHT WIDTH p). cbv zeta.
  rewrite Hstore. simpl. done.
Qed.

Lemma dilation_writes_stay_in_range_witness :
  let s := Store (empty_grid 6 12) [] in
  let p := PolygonData [(-180, 90)%float] (-180, 90, -180, 90)%float false true in
  let s' := final_store (mark_polygon_on_grid 30 6 12 p s) in
  exists ws,
    journal s' = journal s ++ ws /\
    Forall (in_grid 6 12) ws /\
    cells s' = paint (cells s) ws.
Proof.
  apply (dilation_writes_stay_in_range 30 6 12); [lia | lia |].
  split; [reflexivity | vm_compute; repeat constructor].
Defined.

(** At the north-west corner the stamp writes the corner cell and its three
    in-range neighbours; the five positions with a negative index are never
    used as subscripts. *)
Lemma corner_point_does_not_wrap :
  journal (final_store
             (mark_polygon_on_grid 30 6 12
                (PolygonData [(-180, 90)%float] (-180, 90, -180, 90)%float false true)
                (Store (empty_grid 6 12) [])))
  = [(0, 0); (0, 0); (0, 1); (1, 0); (1, 1)].
Proof. vm_compute. reflexivity. Qed.

(** ** Order independence *)

Lemma forallb_Permutation {A : Type} (f : A -> bool) (l l' : list A) :
  l ≡ₚ l' -> forallb f l = forallb f l'.
Proof.
  induction 1 as [|x l l' _ IH|x y l|l l' l'' _ IH1 _ IH2]; simpl.
  - reflexivity.
  - rewrite IH. reflexivity.
  - destruct (f x), (f y); reflexivity.
  - congruence.
Qed.

(** C8. Every classification only sets cells: a cell that is land before
    [mark_polygon_on_grid] is land after it, exception or not. And the grid
    [main] builds does not depend on the order of [all_polygons]: a
    permutation of the entries either fails as well (some entry raises) or
    yields the same grid, cell for cell. *)
Theorem classification_is_order_independent (RESOLUTION : float)
    (HEIGHT WIDTH : Z) :
  0 < HEIGHT -> 0 < WIDTH ->
  (forall p s r c,
      grid_shape HEIGHT WIDTH (cells s) ->
      cell (cells s) r c = Some 1 ->
      cell (cells (final_store (mark_polygon_on_grid RESOLUTION HEIGHT WIDTH p s))) r c
      = Some 1) /\
  (forall l l',
      l ≡ₚ l' ->
      finished (build RESOLUTION HEIGHT WIDTH l)
      = finished (build RESOLUTION HEIGHT WIDTH l')).
Proof.
  intros HH HW. split.
  - intros p s r c Hs Hland.
    destruct (mark_polygon_on_grid_footprint RESOLUTION HEIGHT WIDTH HH HW p)
      as [Hws Hp].
    destruct (Hp s Hs) as [-> _]. simpl.
    rewrite (cell_paint HEIGHT WIDTH) by done.
    destruct (decide _); [reflexivity|exact Hland].
  - intros l l' Hperm. unfold build.
    assert (Hs : grid_shape HEIGHT WIDTH
                   (cells (Store (empty_grid HEIGHT WIDTH) [])))
      by (apply grid_shape_empty; lia).
    rewrite !(for_each_finished RESOLUTION HEIGHT WIDTH HH HW) by exact Hs.
    rewrite (forallb_Permutation _ l l' Hperm).
    destruct (forallb _ l'); [|reflexivity]. f_equal.
    assert (Hin : forall l0 : list polygon_data,
               Forall (in_grid HEIGHT WIDTH)
                      (concat (footprint RESOLUTION HEIGHT WIDTH <$> l0))).
    { intros l0. apply Forall_concat, Forall_fmap, Forall_true. intros p.
      apply (mark_polygon_on_grid_footprint RESOLUTION HEIGHT WIDTH HH HW p). }
    apply (paint_ext HEIGHT WIDTH); try done.
    intros rc. rewrite !elem_of_concat.
    split; intros (ws & Hws & Hrc); exists ws; split; try done;
      apply list_elem_of_fmap in Hws as (p & -> & Hp);
      apply list_elem_of_fmap; exists p; split; try done.
    + rewrite <- Hperm. exact Hp.
    + rewrite Hperm. exact Hp.
Qed.

Lemma classification_is_order_independent_witness :
  (forall p s r c,
      grid_shape 6 12 (cells s) ->
      cell (cells s) r c = Some 1 ->
      cell (cells (final_store (mark_polygon_on_grid 30 6 12 p s))) r c = Some 1) /\
  (forall l l',
      l ≡ₚ l' -> finished (build 30 6 12 l) = finished (build 30 6 12 l')).
Proof. apply (classification_is_order_independent 30 6 12); lia. Defined.

(** ** Polygon fill *)

Lemma concat_fmap_id {A : Type} (ls : list (list A)) :
  concat ((fun l => l) <$> ls) = concat ls.
Proof. rewrite list_fmap_id. reflexivity. Qed.

(** The polygon branch follows [polygon_scan]: it finishes after setting
    the cells the scan lists, or stops with the exception the scan meets. *)
Lemma follows_polygon_fill (RESOLUTION : float) (HEIGHT WIDTH : Z) (p : polygon_data) :
  0 < HEIGHT -> 0 < WIDTH ->
  is_point p = false -> is_line p = false ->
  follows HEIGHT WIDTH (mark_polygon_on_grid RESOLUTION HEIGHT WIDTH p)
          (polygon_scan RESOLUTION HEIGHT WIDTH p)
          (fun rows => concat ((fun cols => concat ((fun l => l) <$> cols)) <$> rows)).
Proof.
  intros HH HW Hpoint Hline.
  unfold mark_polygon_on_grid, polygon_scan. rewrite Hpoint, Hline.
  destruct (bbox p) as [[[min_lon min_lat] max_lon] max_lat].
  apply follows_bind_pure; [done..|]. intros [start_row ?] _.
  apply follows_bind_pure; [done..|]. intros [end_row ?] _.
  apply follows_bind_pure; [done..|]. intros [? start_col] _.
  apply follows_bind_pure; [done..|]. intros [? end_col] _.
  apply follows_for_each; [done..|]. intros row Hrow. apply elem_of_range in Hrow.
  apply follows_for_each; [done..|]. intros col Hcol. apply elem_of_range in Hcol.
  unfold scan_cell.
  apply follows_bind_pure; [done..|]. intros [lat lon] _.
  apply follows_bind_pure; [done..|]. intros inside _.
  unfold follows. destruct inside.
  - apply performs_setitem2. unfold in_grid. simpl. lia.
  - apply performs_ret.
Qed.

(** Polygon fill, on the grid: when the scan raises nothing the call
    finishes and the grid afterwards has exactly the scanned cells set to
    land on top of what was there. *)
Lemma polygon_fill (RESOLUTION : float) (HEIGHT WIDTH : Z) (p : polygon_data) (s : store) :
  0 < HEIGHT -> 0 < WIDTH -> grid_shape HEIGHT WIDTH (cells s) ->
  is_point p = false -> is_line p = false ->
  match polygon_cells RESOLUTION HEIGHT WIDTH p with
  | Ok ws =>
      Forall (in_grid HEIGHT WIDTH) ws /\
      mark_polygon_on_grid RESOLUTION HEIGHT WIDTH p s = Done tt (after_writes s ws)
  | Raise e => exists s', mark_polygon_on_grid RESOLUTION HEIGHT WIDTH p s = Fail e s'
  end.
Proof.
  intros HH HW Hs Hpoint Hline.
  pose proof (follows_polygon_fill RESOLUTION HEIGHT WIDTH p HH HW Hpoint Hline) as Hf.
  unfold polygon_cells, follows in *.
  destruct (polygon_scan RESOLUTION HEIGHT WIDTH p) as [rows|e]; simpl.
  - assert (Heq : concat ((fun cols : list (list (Z * Z)) =>
                             concat ((fun l => l) <$> cols)) <$> rows)
                  = concat ((fun cols => concat cols) <$> rows)).
    { f_equal. apply list_fmap_ext. intros _ cols _. apply concat_fmap_id. }
    rewrite Heq in Hf. destruct Hf as [Hws Hm]. split; [exact Hws|apply Hm, Hs].
  - destruct Hf as (ws & Hws & Hm). eexists. apply Hm, Hs.
Qed.

(** ** Line dilation *)

Lemma mapM_Ok_length {A B : Type} (f : A -> result B) (l : list A) : forall ys,
  mapM f l = Ok ys -> length ys = length l.
Proof.
  induction l as [|x l IH]; intros ys; simpl.
  - intros [= <-]. reflexivity.
  - destruct (f x) as [y|]; simpl; [|discriminate].
    destruct (mapM f l) as [ys'|]; simpl; [|discriminate].
    intros [= <-]. simpl. f_equal. apply IH. reflexivity.
Qed.

Lemma mapM_Ok_lookup {A B : Type} (f : A -> result B) (l : list A) : forall ys k x,
  mapM f l = Ok ys -> l !! k = Some x -> exists y, ys !! k = Some y /\ f x = Ok y.
Proof.
  induction l as [|x0 l IH]; intros ys k x; simpl; [intros _ H; inversion H|].
  destruct (f x0) as [y0|] eqn:Hy0; simpl; [|discriminate].
  destruct (mapM f l) as [ys'|]; simpl; [|discriminate].
  intros [= <-]. destruct k as [|k]; simpl.
  - intros [= <-]. eauto.
  - intros Hx. apply (IH ys' k x eq_refl Hx).
Qed.

(** The code's interval count: the truncated quotient, at least 2. *)
Lemma line_steps_truncates (RESOLUTION lon1 lat1 lon2 lat2 : float) (steps : Z) :
  line_steps RESOLUTION lon1 lat1 lon2 lat2 = Ok steps ->
  exists q n,
    truediv (fmax (abs (lon2 - lon1)) (abs (lat2 - lat1))) RESOLUTION = Ok q /\
    int_of_float (q * 2) = Ok n /\
    steps = Z.max 2 n /\ 2 <= steps.
Proof.
  unfold line_steps.
  destruct (truediv _ RESOLUTION) as [q|] eqn:Hq; cbn [mbind result_bind]; [|discriminate].
  destruct (int_of_float (q * 2)) as [n|] eqn:Hn; cbn [mbind result_bind]; [|discriminate].
  intros [= <-]. exists q, n. repeat split; try done; lia.
Qed.

(** A segment is sampled at [steps + 1] points, the one of index [k] at
    parameter [k / steps]. *)
Lemma segment_samples_points (RESOLUTION : float) (HEIGHT WIDTH : Z)
    (coords : list position) (i : Z) (cs : list (Z * Z)) :
  segment_samples RESOLUTION HEIGHT WIDTH coords i = Ok cs ->
  exists lon1 lat1 lon2 lat2 steps,
    getitem coords i = Ok (lon1, lat1) /\
    getitem coords (i + 1) = Ok (lon2, lat2) /\
    line_steps RESOLUTION lon1 lat1 lon2 lat2 = Ok steps /\
    Z.of_nat (length cs) = steps + 1 /\
    forall k, 0 <= k <= steps ->
      exists t rc,
        int_truediv k steps = Ok t /\
        lat_lon_to_grid RESOLUTION HEIGHT WIDTH
          (lat1 + t * (lat2 - lat1)) (lon1 + t * (lon2 - lon1)) = Ok rc /\
        cs !! Z.to_nat k = Some rc.
Proof.
  unfold segment_samples.
  destruct (getitem coords i) as [[lon1 lat1]|]; simpl; [|discriminate].
  destruct (getitem coords (i + 1)) as [[lon2 lat2]|]; simpl; [|discriminate].
  destruct (line_steps RESOLUTION lon1 lat1 lon2 lat2) as [steps|] eqn:Hsteps;
    simpl; [|discriminate].
  intros Hcs. exists lon1, lat1, lon2, lat2, steps.
  pose proof (line_steps_truncates _ _ _ _ _ _ Hsteps) as (_ & _ & _ & _ & _ & Hge).
  repeat split; try done.
  - rewrite (mapM_Ok_length _ _ _ Hcs). unfold range. rewrite length_seqZ. lia.
  - intros k Hk.
    destruct (mapM_Ok_lookup _ _ _ (Z.to_nat k) k Hcs) as (rc & Hrc & Hcell).
    { unfold range. rewrite lookup_seqZ_lt by lia. f_equal. lia. }
    unfold sample_cell, interpolate in Hcell.
    destruct (int_truediv k steps) as [t|]; simpl in Hcell; [|discriminate].
    exists t, rc. done.
Qed.

Lemma elem_of_line_writes (HEIGHT WIDTH : Z) (css : list (list (Z * Z))) (rc : Z * Z) :
  Forall (in_grid HEIGHT WIDTH)
         (concat ((fun cs => concat (stamp_writes HEIGHT WIDTH <$> cs)) <$> css)) ->
  rc ∈ concat ((fun cs => concat (stamp_writes HEIGHT WIDTH <$> cs)) <$> css) <->
  in_grid HEIGHT WIDTH rc /\ Exists (fun q => near q rc) (concat css).
Proof.
  intros Hall.
  assert (Hq : forall cs q, cs ∈ css -> q ∈ cs -> in_grid HEIGHT WIDTH q).
  { intros cs q Hcs Hq. rewrite Forall_forall in Hall. apply Hall.
    apply elem_of_concat. exists (concat (stamp_writes HEIGHT WIDTH <$> cs)).
    split; [apply list_elem_of_fmap; exists cs; done|].
    apply elem_of_concat. exists (stamp_writes HEIGHT WIDTH q).
    split; [apply list_elem_of_fmap; exists q; done|]. left. }
  rewrite Exists_exists. split.
  - intros Hrc. apply elem_of_concat in Hrc as (ws & Hws & Hrc).
    apply list_elem_of_fmap in Hws as (cs & -> & Hcs).
    apply elem_of_concat in Hrc as (ws & Hws & Hrc).
    apply list_elem_of_fmap in Hws as (q & -> & Hqcs).
    apply elem_of_stamp_writes in Hrc as [Hin Hnear]; [|apply (Hq cs q); done].
    split; [exact Hin|]. exists q. split; [|exact Hnear].
    apply elem_of_concat. exists cs. done.
  - intros (Hin & q & Hqin & Hnear).
    apply elem_of_concat in Hqin as (cs & Hcs & Hqcs).
    apply elem_of_concat. exists (concat (stamp_writes HEIGHT WIDTH <$> cs)).
    split; [apply list_elem_of_fmap; exists cs; done|].
    apply elem_of_concat. exists (stamp_writes HEIGHT WIDTH q).
    split; [apply list_elem_of_fmap; exists q; done|].
    apply elem_of_stamp_writes; [apply (Hq cs q); done|]. done.
Qed.

(** C5, as amended. For each consecutive vertex pair of a line the number
    of interpolation intervals is [steps = max(2, int(max(|dlon|, |dlat|) /
    RESOLUTION * 2))], the quotient truncated, not rounded; the segment is
    sampled at the [steps + 1] points of parameter [k / steps], [k = 0 ..
    steps], each mapped to a cell by [lat_lon_to_grid]; and when no sample
    raises, the call finishes and has set to land exactly the cells of the
    grid that are a sample cell or one of its eight neighbours, leaving
    every other cell as it was. When a sample raises, so does the call. *)
Theorem line_dilation (RESOLUTION : float) (HEIGHT WIDTH : Z)
    (coords : list position) (box : float * float * float * float) (s : store) :
  0 < HEIGHT -> 0 < WIDTH -> grid_shape HEIGHT WIDTH (cells s) ->
  (forall lon1 lat1 lon2 lat2 steps,
      line_steps RESOLUTION lon1 lat1 lon2 lat2 = Ok steps ->
      exists q n,
        truediv (fmax (abs (lon2 - lon1)) (abs (lat2 - lat1))) RESOLUTION = Ok q /\
        int_of_float (q * 2) = Ok n /\ steps = Z.max 2 n /\ 2 <= steps) /\
  (forall i cs,
      segment_samples RESOLUTION HEIGHT WIDTH coords i = Ok cs ->
      exists lon1 lat1 lon2 lat2 steps,
        getitem coords i = Ok (lon1, lat1) /\
        getitem coords (i + 1) = Ok (lon2, lat2) /\
        line_steps RESOLUTION lon1 lat1 lon2 lat2 = Ok steps /\
        Z.of_nat (length cs) = steps + 1 /\
        forall k, 0 <= k <= steps ->
          exists t rc,
            int_truediv k steps = Ok t /\
            lat_lon_to_grid RESOLUTION HEIGHT WIDTH
              (lat1 + t * (lat2 - lat1)) (lon1 + t * (lon2 - lon1)) = Ok rc /\
            cs !! Z.to_nat k = Some rc) /\
  match line_samples RESOLUTION HEIGHT WIDTH coords with
  | Ok samples =>
      exists s',
        mark_polygon_on_grid RESOLUTION HEIGHT WIDTH
          (PolygonData coords box true false) s = Done tt s' /\
        forall r c : nat,
          let rc := (Z.of_nat r, Z.of_nat c) in
          (in_grid HEIGHT WIDTH rc /\ Exists (fun q => near q rc) samples ->
           cell (cells s') r c = Some 1) /\
          (~ (in_grid HEIGHT WIDTH rc /\ Exists (fun q => near q rc) samples) ->
           cell (cells s') r c = cell (cells s) r c)
  | Raise e =>
      exists s',
        mark_polygon_on_grid RESOLUTION HEIGHT WIDTH
          (PolygonData coords box true false) s = Fail e s'
  end.
Proof.
  intros HH HW Hs. split; [|split].
  - intros lon1 lat1 lon2 lat2 steps. apply line_steps_truncates.
  - intros i cs. apply segment_samples_points.
  - pose proof (follows_mark_line RESOLUTION HEIGHT WIDTH HH HW coords) as Hline.
    unfold line_samples, mark_polygon_on_grid. simpl.
    destruct box as [[[min_lon min_lat] max_lon] max_lat].
    unfold follows in Hline.
    destruct (mapM (segment_samples RESOLUTION HEIGHT WIDTH coords) _) as [css|e];
      simpl.
    + destruct Hline as [Hws Hm]. rewrite (Hm s Hs). eexists. split; [reflexivity|].
      intros r c. cbv zeta. simpl.
      rewrite (cell_paint HEIGHT WIDTH) by done.
      pose proof (elem_of_line_writes HEIGHT WIDTH css (Z.of_nat r, Z.of_nat c) Hws)
        as Hiff.
      destruct (decide _) as [Hin|Hnin].
      * split; [reflexivity|]. intros Hn. exfalso. apply Hn, Hiff, Hin.
      * split; [|reflexivity]. intros Hy. exfalso. apply Hnin, Hiff, Hy.
    + destruct Hline as (ws & Hws & Hm). rewrite (Hm s Hs). eexists. reflexivity.
Qed.

Lemma line_dilation_witness :
  let coords := [(0, 0); (40, 0)]%float in
  let s := Store (empty_grid 6 12) [] in
  match line_samples 30 6 12 coords with
  | Ok samples =>
      exists s',
        mark_polygon_on_grid 30 6 12
          (PolygonData coords (0, 0, 40, 0)%float true false) s = Done tt s' /\
        forall r c : nat,
          let rc := (Z.of_nat r, Z.of_nat c) in
          (in_grid 6 12 rc /\ Exists (fun q => near q rc) samples ->
           cell (cells s') r c = Some 1) /\
          (~ (in_grid 6 12 rc /\ Exists (fun q => near q rc) samples) ->
           cell (cells s') r c = cell (cells s) r c)
  | Raise e =>
      exists s',
        mark_polygon_on_grid 30 6 12
          (PolygonData coords (0, 0, 40, 0)%float true false) s = Fail e s'
  end.
Proof.
  apply (line_dilation 30 6 12 [(0, 0); (40, 0)]%float (0, 0, 40, 0)%float
           (Store (empty_grid 6 12) [])); [lia | lia |].
  split; [reflexivity | vm_compute; repeat constructor].
Defined.

(** C5 as stated fails: for a segment 0.026 degrees long at the script's
    resolution the quotient is 2.6, which the code truncates to 2 intervals
    where the rounded formula of the specification gives 3. *)
Lemma rounded_line_steps_differ :
  line_steps Main.RESOLUTION 0 0 0.026 0 = Ok 2 /\
  spec_line_steps Main.RESOLUTION 0 0 0.026 0 = Ok 3.
Proof. split; vm_compute; reflexivity. Qed.

(** The samples of that segment: three points, where the rounded formula
    would place four. *)
Lemma short_segment_samples :
  line_samples Main.RESOLUTION Main.HEIGHT Main.WIDTH [(0, 0); (0.026, 0)]%float
  = Ok [(4500, 9000); (4500, 9000); (4500, 9001)].
Proof. vm_compute. reflexivity. Qed.

(** ** Malformed shapes *)

(** C7 fails in the ray-casting script, which has no handler anywhere: a
    polygon whose outer ring is empty raises [ValueError] in
    [calculate_bbox] while the file is loaded, and a point with a NaN
    coordinate raises [ValueError] in [lat_lon_to_grid], which stops the
    build before the entries after it are looked at.  A polygon of two
    vertices is not passed over either: it is loaded and scanned like any
    other ring, and where rounding puts the computed crossing to the right
    of a cell center on its segment, the cell becomes land. *)
Theorem malformed_shape_aborts_the_build :
  load_geojson [Polygon [[]]] = Raise ValueError /\
  load_geojson [Point (nan, 0%float)]
  = Ok [PolygonData [(nan, 0%float)] (nan, 0, nan, 0)%float false true] /\
  (forall s,
      mark_polygon_on_grid Main.RESOLUTION Main.HEIGHT Main.WIDTH
        (PolygonData [(nan, 0%float)] (nan, 0, nan, 0)%float false true) s
      = Fail ValueError s) /\
  finished (build 30 6 12
              [PolygonData [(nan, 0%float)] (nan, 0, nan, 0)%float false true;
               PolygonData [(0, 0)%float] (0, 0, 0, 0)%float false true])
  = None /\
  load_geojson [Polygon [two_vertex_ring_main]] = Ok [two_vertex_polygon_main] /\
  (forall s,
      grid_shape Main.HEIGHT Main.WIDTH (cells s) ->
      mark_polygon_on_grid Main.RESOLUTION Main.HEIGHT Main.WIDTH
        two_vertex_polygon_main s
      = Done tt (after_writes s [(4500, 9000)])) /\
  load_geojson [Polygon [two_vertex_ring]] = Ok [two_vertex_polygon] /\
  finished (build 30 6 12 [two_vertex_polygon])
  = Some (<[2%nat := <[6%nat := 1]> (replicate 12 0)]> (empty_grid 6 12)).
Proof.
  split; [|split; [|split; [|split; [|split; [|split; [|split]]]]]].
  - vm_compute. reflexivity.
  - vm_compute. reflexivity.
  - intros s. vm_compute. reflexivity.
  - vm_compute. reflexivity.
  - vm_compute. reflexivity.
  - intros s Hs.
    pose proof (polygon_fill Main.RESOLUTION Main.HEIGHT Main.WIDTH
                  two_vertex_polygon_main s eq_refl eq_refl Hs eq_refl eq_refl) as Hfill.
    assert (Hcells : polygon_cells Main.RESOLUTION Main.HEIGHT Main.WIDTH
                       two_vertex_polygon_main = Ok [(4500, 9000)])
      by (vm_compute; reflexivity).
    rewrite Hcells in Hfill. apply Hfill.
  - vm_compute. reflexivity.
  - vm_compute. reflexivity.
Qed.

(** The degenerate inputs the code does pass over: a line with a single
    vertex has no segment, so nothing is written and nothing raised. *)
Lemma single_vertex_line_is_skipped (RESOLUTION : float) (HEIGHT WIDTH : Z)
    (v : position) (box : float * float * float * float) (s : store) :
  mark_polygon_on_grid RESOLUTION HEIGHT WIDTH (PolygonData [v] box true false) s
  = Done tt s.
Proof.
  unfold mark_polygon_on_grid. simpl.
  destruct box as [[[min_lon min_lat] max_lon] max_lat]. reflexivity.
Qed.
